(** * csv_hashmap: a composite-key index over a comma-separated file

    Shallow embedding of [src/prototype/csv_hashmap/csv_hashmap.cpp] and
    the properties of its splitting, header resolution, index building
    and lookup.

    The first part is the program: the streams it reads through
    [std::getline], [split_csv_row], [make_key] and [main], with [size_t]
    arithmetic modulo [2 ^ 64], unchecked vector indexing as an option, and
    the two loops over a stream defined by well-founded recursion on what
    the stream can still give.  The second part names what the properties
    speak about, the third relates the loops to the lines of the file, the
    fourth states the properties C1 to C10, and the last one states further
    properties of the same code, X1 to X22. *)

From Stdlib Require Import ZArith String Ascii List Sorted Lia.
From stdpp Require Import base option list gmap strings pretty.
From Equations Require Import Equations.
From Equations.Prop Require Import Logic.

Local Open Scope string_scope.
Local Open Scope list_scope.
Local Open Scope Z_scope.

(** * The program *)

(** ** Machine integers and characters *)

(** [size_t] is a 64-bit unsigned integer. *)
Definition wrap (z : Z) : Z := z mod 2 ^ 64.

(** [std::string::npos], which is [size_t(-1)]. *)
Definition npos : Z := wrap (-1).

(** The line feed, as a character and as the one-character string. *)
Definition LF : ascii := "010"%char.
Definition endl : string := String LF EmptyString.

(** ** Input streams

    [std::stringstream] and [std::ifstream] are both read through
    [std::getline] only.  A stream is the text still to be read and the two
    state bits that [getline] sets; [badbit] (a device error) is never set
    on the text of a string or of a file that was opened. *)

Module Stream.

Record istream : Type := mk_istream {
  rdbuf : string;
  eofbit : bool;
  failbit : bool
}.

(** A stream freshly built over the text [s]. *)
Definition open (s : string) : istream :=
  {| rdbuf := s; eofbit := false; failbit := false |}.

(** A file stream whose file could not be opened: [failbit] is set and
    there is nothing to read. *)
Definition unopened : istream :=
  {| rdbuf := EmptyString; eofbit := false; failbit := true |}.

(** [good()]: no state bit is set. *)
Definition good (strm : istream) : bool := negb (eofbit strm) && negb (failbit strm).

(** The characters up to the first [delim]; [Some rest] when the delimiter
    was found (it is extracted and dropped), [None] when the end of the
    text was reached first. *)
Fixpoint extract (delim : ascii) (buf : string) : string * option string :=
  match buf with
  | EmptyString => (EmptyString, None)
  | String c rest =>
      if Ascii.eqb c delim then (EmptyString, Some rest)
      else let '(cell, r) := extract delim rest in (String c cell, r)
  end.

(** [std::getline(strm, str, delim)].  When the stream is not good the call
    sets [failbit] and leaves [str] alone.  Otherwise [str] is erased and
    filled up to the delimiter or the end of the text; reaching the end sets
    [eofbit], and extracting nothing at all (not even a delimiter) sets
    [failbit]. *)
Definition getline (strm : istream) (str : string) (delim : ascii)
  : istream * string :=
  if good strm then
    match extract delim (rdbuf strm) with
    | (cell, Some rest) =>
        ({| rdbuf := rest; eofbit := false; failbit := false |}, cell)
    | (cell, None) =>
        ({| rdbuf := EmptyString; eofbit := true;
            failbit := String.eqb cell EmptyString |}, cell)
    end
  else ({| rdbuf := rdbuf strm; eofbit := eofbit strm; failbit := true |}, str).

(** The number of [getline] calls a stream can still answer, plus one. *)
Definition budget (strm : istream) : nat :=
  if failbit strm then 0%nat
  else if eofbit strm then 1%nat
  else (2 + String.length (rdbuf strm))%nat.

Lemma extract_length delim buf cell rest :
  extract delim buf = (cell, Some rest) →
  (String.length buf = String.length cell + 1 + String.length rest)%nat.
Proof.
  revert cell rest. induction buf as [|c buf IH]; intros cell rest; simpl.
  - discriminate.
  - destruct (Ascii.eqb c delim).
    + intros [= <- <-]. simpl. lia.
    + destruct (extract delim buf) as [cell' r'] eqn:E.
      intros [= <- ->]. simpl. rewrite (IH cell' rest eq_refl). lia.
Qed.

Lemma getline_budget strm str delim is' str' :
  getline strm str delim = (is', str') →
  failbit is' = false →
  (budget is' < budget strm)%nat.
Proof.
  unfold getline, good, budget.
  destruct strm as [buf e f]; simpl.
  destruct e, f; simpl; try (intros [= <- <-]; simpl; discriminate).
  destruct (extract delim buf) as [cell [rest|]] eqn:E.
  - intros [= <- <-] _. simpl. apply extract_length in E. lia.
  - intros [= <- <-]. simpl. intros ->. lia.
Qed.

End Stream.
Import Stream.

(** ** The row splitter (lines 8-18) *)

(** [while (std::getline(ss, cell, ',')) result.push_back(cell);] *)
Equations? split_loop (ss : istream) (cell : string) (result : list string)
  : list string by wf (budget ss) lt :=
  split_loop ss cell result with inspect (getline ss cell ",") := {
    | exist _ (ss', cell') Hget with inspect (failbit ss') := {
      | exist _ true _ => result
      | exist _ false Hfail => split_loop ss' cell' (result ++ [cell']) } }.
Proof. eapply getline_budget; eauto. Qed.

Definition split_csv_row (line : string) : list string :=
  split_loop (open line) EmptyString [].

(** ** The key builder (lines 20-23) *)

(** [row[i]] of a [std::vector]: there is no bounds check, and an index
    outside the vector is undefined behaviour, which is [None] here. *)
Definition at_index (row : list string) (i : Z) : option string :=
  if (0 <=? i) && (i <? Z.of_nat (length row)) then row !! Z.to_nat i else None.

Definition make_key (row : list string) (package_idx arch_idx release_idx : Z)
  : option string :=
  p ← at_index row package_idx;
  a ← at_index row arch_idx;
  r ← at_index row release_idx;
  Some (p +:+ "|" +:+ a +:+ "|" +:+ r).

(** ** The program (lines 25-87) *)

(** What the program has written and built when it returns.  [cout] and
    [cerr] hold one entry per output statement, in the order written; the
    text of a stream is their concatenation.  [file] and [hashmap] are
    [None] as long as the variable is not declared; [file] is declared at
    line 31, also when the file does not open. *)
Record state : Type := mk_state {
  file : option istream;
  hashmap : option (gmap string (list string));
  cout : list string;
  cerr : list string
}.

(** Lines 41-46: the three positions start at [size_t(-1)]; every header
    that equals a required name overwrites the position of that name. *)
Fixpoint find_columns (headers : list string) (i : Z)
    (package_idx arch_idx release_idx : Z) : Z * Z * Z :=
  match headers with
  | [] => (package_idx, arch_idx, release_idx)
  | h :: rest =>
      let package_idx := if String.eqb h "package" then i else package_idx in
      let arch_idx := if String.eqb h "architecture" then i else arch_idx in
      let release_idx := if String.eqb h "release" then i else release_idx in
      find_columns rest (wrap (i + 1)) package_idx arch_idx release_idx
  end.

Definition usage_msg : string := "Usage: ./csv_hashmap <csv_file>" +:+ endl.
Definition open_msg (path : string) : string :=
  "Error opening file: " +:+ path +:+ endl.
Definition missing_msg : string :=
  "Missing required columns (package, architecture, release)" +:+ endl.
Definition warning_msg (line_num : Z) : string :=
  "Warning: Skipping malformed line " +:+ pretty line_num +:+ endl.
Definition loaded_msg (size : nat) : string :=
  "✅ Loaded " +:+ pretty (Z.of_nat size) +:+ " unique entries." +:+ endl.

(** Lines 58-66, the body of the index loop on the line just read: the new
    line number, map and [cerr]; [None] is undefined behaviour. *)
Definition index_body (headers : list string)
    (package_idx arch_idx release_idx : Z) (line : string) (line_num : Z)
    (hashmap : gmap string (list string)) (cerr : list string)
  : option (Z * gmap string (list string) * list string) :=
  let line_num := wrap (line_num + 1) in
  let row := split_csv_row line in
  if negb (length row =? length headers)%nat then
    Some (line_num, hashmap, cerr ++ [warning_msg line_num])
  else
    key ← make_key row package_idx arch_idx release_idx;
    Some (line_num, <[key := row]> hashmap, cerr).

(** Lines 57-67: [while (std::getline(file, line)) { ... }]. *)
Equations? index_loop (headers : list string)
    (package_idx arch_idx release_idx : Z) (file : istream) (line : string)
    (line_num : Z) (hashmap : gmap string (list string)) (cerr : list string)
  : option (istream * Z * gmap string (list string) * list string)
  by wf (budget file) lt :=
  index_loop headers package_idx arch_idx release_idx file line line_num
      hashmap cerr with inspect (getline file line LF) := {
    | exist _ (file', line') Hget with inspect (failbit file') := {
      | exist _ true _ => Some (file', line_num, hashmap, cerr)
      | exist _ false Hfail
          with index_body headers package_idx arch_idx release_idx line'
                 line_num hashmap cerr := {
        | None => None
        | Some (line_num', hashmap', cerr') =>
            index_loop headers package_idx arch_idx release_idx file' line'
              line_num' hashmap' cerr' } } }.
Proof. eapply getline_budget; eauto. Qed.

(** Lines 77-84: the lookup and its report on [cout]. *)
Definition query (hashmap : gmap string (list string)) (query_key : string)
    (cout : list string) : gmap string (list string) * list string :=
  match hashmap !! query_key with
  | Some row =>
      (hashmap,
       cout ++ ["🔍 Found: "] ++ ((λ col, col +:+ " | ") <$> row) ++ [endl])
  | None => (hashmap, cout ++ ["❌ Not found: " +:+ query_key +:+ endl])
  end.

(** Lines 37-86: the program once the file is open on [content]. *)
Definition process (content : string) : option (Z * state) :=
  let '(file, line) := getline (open content) EmptyString LF in
  let headers := split_csv_row line in
  let '(package_idx, arch_idx, release_idx) :=
    find_columns headers 0 npos npos npos in
  if (package_idx =? npos) || (arch_idx =? npos) || (release_idx =? npos) then
    Some (1, {| file := Some file; hashmap := None;
                cout := []; cerr := [missing_msg] |})
  else
    match index_loop headers package_idx arch_idx release_idx file line 1 ∅ []
    with
    | None => None
    | Some (file, line_num, hashmap, cerr) =>
        let cout := [loaded_msg (size hashmap)] in
        let query_package := "openssl" in
        let query_arch := "amd64" in
        let query_release := "22.04" in
        let query_key :=
          query_package +:+ "|" +:+ query_arch +:+ "|" +:+ query_release in
        let '(hashmap, cout) := query hashmap query_key cout in
        Some (0, {| file := Some file; hashmap := Some hashmap;
                    cout := cout; cerr := cerr |})
    end.

(** [main]: [argv] holds the program name and the arguments, and [fs] gives
    the text of the files that can be opened. *)
Definition main (argv : list string) (fs : string → option string)
  : option (Z * state) :=
  match argv with
  | [_; path] =>
      match fs path with
      | None =>
          Some (1, {| file := Some unopened; hashmap := None;
                      cout := []; cerr := [open_msg path] |})
      | Some content => process content
      end
  | _ =>
      Some (1, {| file := None; hashmap := None;
                  cout := []; cerr := [usage_msg] |})
  end.

(** * The vocabulary of the properties *)

(** ** What a [getline] loop reads *)

(** The pieces of a text as the contract of the row splitter words them:
    the substrings obtained by splitting at every occurrence of the
    delimiter, empty ones between two delimiters and at both ends included.
    There is one piece more than there are delimiters. *)
Fixpoint segments (delim : ascii) (s : string) : list string :=
  match s with
  | EmptyString => [EmptyString]
  | String c rest =>
      if Ascii.eqb c delim then EmptyString :: segments delim rest
      else
        match segments delim rest with
        | seg :: segs => String c seg :: segs
        | [] => [String c EmptyString]
        end
  end.

(** The number of occurrences of the delimiter. *)
Fixpoint count_delim (delim : ascii) (s : string) : nat :=
  match s with
  | EmptyString => 0%nat
  | String c rest =>
      if Ascii.eqb c delim then S (count_delim delim rest)
      else count_delim delim rest
  end.

(** A list without its last element when that element is the empty
    string. *)
Fixpoint drop_final_empty (l : list string) : list string :=
  match l with
  | [] => []
  | x :: rest =>
      match rest with
      | [] => if String.eqb x EmptyString then [] else [x]
      | _ :: _ => x :: drop_final_empty rest
      end
  end.

(** The cells that successive [getline] calls obtain from a stream until
    one of them fails. *)
Definition reads (delim : ascii) (strm : istream) : list string :=
  if good strm then drop_final_empty (segments delim (rdbuf strm)) else [].

(** The stream once a [getline] call on it has failed. *)
Definition drained (strm : istream) : istream :=
  if good strm then {| rdbuf := EmptyString; eofbit := true; failbit := true |}
  else {| rdbuf := rdbuf strm; eofbit := eofbit strm; failbit := true |}.

(** The line is empty or ends with the delimiter, which is when its last
    piece is empty. *)
Fixpoint open_ended (delim : ascii) (s : string) : bool :=
  match s with
  | EmptyString => true
  | String c rest =>
      match rest with
      | EmptyString => Ascii.eqb c delim
      | String _ _ => open_ended delim rest
      end
  end.

(** ** The file as lines *)

(** The lines that [getline] reads from a file holding [content]: the
    pieces between line feeds, without an empty piece after the last line
    feed. *)
Definition file_lines (content : string) : list string :=
  reads LF (open content).

(** Line 1 (the empty string when the file has no line at all), its
    fields, and the lines after it. *)
Definition header_line (content : string) : string :=
  hd EmptyString (file_lines content).
Definition header_fields (content : string) : list string :=
  split_csv_row (header_line content).
Definition data_lines (content : string) : list string :=
  tl (file_lines content).

(** The file stream once line 38 has read the header. *)
Definition after_header (content : string) : istream :=
  fst (getline (open content) EmptyString LF).

(** A file size is an [off_t], a signed 64-bit integer, so no file holds
    [2 ^ 63] bytes or more; with that, no counter of the program wraps. *)
Definition file_size_ok (content : string) : Prop :=
  Z.of_nat (String.length content) < 2 ^ 63.

(** ** Header resolution *)

(** The position of the last occurrence of a name. *)
Fixpoint last_index (name : string) (headers : list string) : option nat :=
  match headers with
  | [] => None
  | h :: rest =>
      match last_index name rest with
      | Some j => Some (S j)
      | None => if String.eqb h name then Some 0%nat else None
      end
  end.

(** The position that the loop of lines 42-46, started at counter [i],
    leaves for a name whose position was [dflt] before. *)
Definition column (name : string) (headers : list string) (i dflt : Z) : Z :=
  match last_index name headers with
  | Some j => i + Z.of_nat j
  | None => dflt
  end.

(** The header names every required column. *)
Definition header_valid (headers : list string) : Prop :=
  "package" ∈ headers ∧ "architecture" ∈ headers ∧ "release" ∈ headers.

Global Instance header_valid_dec headers : Decision (header_valid headers).
Proof. unfold header_valid. apply _. Defined.

(** The three positions that lines 41-46 compute. *)
Definition resolve (headers : list string) : Z * Z * Z :=
  find_columns headers 0 npos npos npos.

(** A position is an index into the header. *)
Definition in_header (headers : list string) (i : Z) : Prop :=
  0 ≤ i < Z.of_nat (length headers).

Definition required : list string := ["package"; "architecture"; "release"].

(** The required names that the header lacks. *)
Definition missing (headers : list string) : list string :=
  filter (λ name, name ∉ headers) required.

(** [j] is the position of the last occurrence of [name]. *)
Definition last_at (name : string) (headers : list string) (j : nat) : Prop :=
  headers !! j = Some name ∧ ∀ k, (j < k)%nat → headers !! k ≠ Some name.

(** The name is at position [j] of the header and nowhere else. *)
Definition only_at (name : string) (headers : list string) (j : nat) : Prop :=
  headers !! j = Some name ∧ ∀ k, headers !! k = Some name → k = j.

(** The header names each required column exactly once. *)
Definition header_unambiguous (headers : list string) : Prop :=
  (∃ j, only_at "package" headers j) ∧
  (∃ j, only_at "architecture" headers j) ∧
  (∃ j, only_at "release" headers j).

(** ** The index and the warnings *)

(** The loop body applied to each line of a list in turn. *)
Fixpoint index_rows (headers : list string) (package_idx arch_idx release_idx : Z)
    (lines : list string) (line_num : Z)
    (hashmap : gmap string (list string)) (cerr : list string)
  : option (Z * gmap string (list string) * list string) :=
  match lines with
  | [] => Some (line_num, hashmap, cerr)
  | line :: rest =>
      match index_body headers package_idx arch_idx release_idx line line_num
              hashmap cerr with
      | None => None
      | Some (line_num', hashmap', cerr') =>
          index_rows headers package_idx arch_idx release_idx rest line_num'
            hashmap' cerr'
      end
  end.

(** A data line is well formed when it has as many fields as the header. *)
Definition well_formed (headers : list string) (line : string) : bool :=
  (length (split_csv_row line) =? length headers)%nat.

(** The composite key of a row, built at the resolved positions. *)
Definition row_key (headers row : list string) : option string :=
  let '(package_idx, arch_idx, release_idx) := resolve headers in
  make_key row package_idx arch_idx release_idx.

(** One line taken into the index: a well-formed line is stored under its
    key, any other line changes nothing. *)
Definition index_insert (headers : list string)
    (m : gmap string (list string)) (line : string)
  : gmap string (list string) :=
  if well_formed headers line then
    match row_key headers (split_csv_row line) with
    | Some key => <[key := split_csv_row line]> m
    | None => m
    end
  else m.

Definition index_of (headers lines : list string)
  : gmap string (list string) :=
  foldl (index_insert headers) ∅ lines.

(** The line numbers of the malformed lines of a list whose first line has
    number [k]. *)
Fixpoint malformed_from (headers : list string) (k : nat)
    (lines : list string) : list nat :=
  match lines with
  | [] => []
  | line :: rest =>
      if well_formed headers line then malformed_from headers (S k) rest
      else k :: malformed_from headers (S k) rest
  end.

Definition warning (k : nat) : string := warning_msg (Z.of_nat k).

(** The key of the lookup of lines 72-75. *)
Definition query_key : string := "openssl|amd64|22.04".

(** The key under which a line is stored, if it is stored. *)
Definition line_key (headers : list string) (line : string) : option string :=
  if well_formed headers line then row_key headers (split_csv_row line)
  else None.

(** The composite keys of the well-formed lines, in file order. *)
Definition keys (headers lines : list string) : list string :=
  omap (line_key headers) lines.

(** The three key fields of a row, at the resolved positions. *)
Definition triple (headers row : list string)
  : option (string * string * string) :=
  let '(package_idx, arch_idx, release_idx) := resolve headers in
  p ← at_index row package_idx;
  a ← at_index row arch_idx;
  r ← at_index row release_idx;
  Some (p, a, r).

(** The composite key of a row read at three given positions. *)
Definition key_at (row : list string) (jp ja jr : nat) : string :=
  (row !!! jp) +:+ "|" +:+ (row !!! ja) +:+ "|" +:+ (row !!! jr).

(** The index the program ends with, if it builds one. *)
Definition final_index (content : string)
  : option (gmap string (list string)) :=
  process content ≫= λ '(_, st), hashmap st.

(** ** The report of the lookup *)

(** The text that a list of writes puts on a stream. *)
Definition text (chunks : list string) : string :=
  foldr String.append EmptyString chunks.

(** [t] ends with [s]. *)
Fixpoint has_suffix (s t : string) : bool :=
  String.eqb t s ||
  match t with
  | EmptyString => false
  | String _ t' => has_suffix s t'
  end.

(** ** Permuted columns *)

(** The fields of a row rearranged: position [j] of the result holds the
    field at position [σ !! j] of the row. *)
Definition permute (σ : list nat) (row : list string) : list string :=
  (λ i, row !!! i) <$> σ.

(** A line of the permuted file against the line of the original file: a
    well-formed line has its fields rearranged by [σ]; any other line keeps
    its number of fields. *)
Definition permuted_line (σ : list nat) (headers : list string)
    (line line' : string) : Prop :=
  if well_formed headers line
  then split_csv_row line' = permute σ (split_csv_row line)
  else length (split_csv_row line') = length (split_csv_row line).

(** ** Lines and fields put together again *)

(** The text ends with the delimiter. *)
Definition ends_with (delim : ascii) (s : string) : bool :=
  open_ended delim s && negb (String.eqb s EmptyString).

(** The fields joined by commas. *)
Definition join_fields (fields : list string) : string :=
  String.concat "," fields.

(** A text without a given character. *)
Definition free_of (c : ascii) (s : string) : Prop := count_delim c s = 0%nat.

(** ** What the index holds for a key *)

(** The fields of the last line of a list that is stored under a key. *)
Fixpoint last_row (headers : list string) (key : string)
    (lines : list string) : option (list string) :=
  match lines with
  | [] => None
  | line :: rest =>
      match last_row headers key rest with
      | Some row => Some row
      | None =>
          if decide (line_key headers line = Some key)
          then Some (split_csv_row line) else None
      end
  end.

(** What a run shows: the exit code, the index, and what was written on
    [cout] and on [cerr]. *)
Definition outcome (content : string)
  : option (Z * option (gmap string (list string)) *
            list string * list string) :=
  process content ≫= λ '(code, st), Some (code, hashmap st, cout st, cerr st).

(** The carriage return. *)
Definition CR : ascii := "013"%char.

(** ** Permuted lines *)

(** The permutation puts no empty field last in the row. *)
Definition keeps_last (σ : list nat) (row : list string) : Prop :=
  last (permute σ row) ≠ Some EmptyString.

(** A line of the permuted file against the line of the original file, as
    text: a well-formed line is its permuted fields joined by commas; any
    other line keeps its number of fields. *)
Definition permuted_text (σ : list nat) (headers : list string)
    (line line' : string) : Prop :=
  if well_formed headers line
  then line' = join_fields (permute σ (split_csv_row line))
  else length (split_csv_row line') = length (split_csv_row line).

(** ** Sample files *)

Definition two_writes : string :=
  "package,architecture,release,version" +:+ endl +:+
  "foo,amd64,20.04,1" +:+ endl +:+
  "bar,arm64,22.04,2" +:+ endl +:+
  "foo,amd64,20.04,3" +:+ endl.

Definition short_row : string :=
  "package,architecture,release" +:+ endl +:+
  "openssl,amd64,22.04" +:+ endl +:+
  "curl,arm64" +:+ endl +:+
  "zlib,amd64,20.04" +:+ endl.

Definition no_architecture : string :=
  "package,release" +:+ endl +:+
  "openssl,22.04" +:+ endl +:+
  "curl" +:+ endl.

Definition two_package_columns : string :=
  "package,architecture,package,release" +:+ endl +:+
  "libssl,amd64,openssl,22.04" +:+ endl.

Definition arch_first : list nat := [1; 0; 2]%nat.

Definition three_writes : string :=
  "package,architecture,release,version" +:+ endl +:+
  "zlib,amd64,20.04,0" +:+ endl +:+
  "foo,amd64,20.04,1" +:+ endl +:+
  "bar,arm64,22.04,2" +:+ endl +:+
  "foo,amd64,20.04,3" +:+ endl +:+
  "foo|amd64,20.04,x,4" +:+ endl +:+
  "baz,amd64,20.04,5" +:+ endl.

Definition colliding_keys : string :=
  "package,architecture,release,version" +:+ endl +:+
  "a|b,c,d,1" +:+ endl +:+
  "a|b,c,d,2" +:+ endl +:+
  "a,b|c,d,3" +:+ endl.


Definition empty_release : string :=
  "package,architecture,release" +:+ endl +:+
  "openssl,amd64," +:+ endl.

Definition header_only : string :=
  "package,architecture,release,version" +:+ endl.

Definition more_rows : string :=
  "foo,amd64,20.04,1" +:+ endl +:+
  "openssl,amd64,22.04,3.0" +:+ endl.

Definition windows_file : string :=
  "package,architecture,release" +:+ String CR endl +:+
  "openssl,amd64,22.04" +:+ String CR endl.

Definition rows_swapped : string :=
  "package,architecture,release,version" +:+ endl +:+
  "openssl,amd64,22.04,3.0" +:+ endl +:+
  "foo,amd64,20.04,1" +:+ endl.

(** * Lemmas *)

(** ** The loops, one iteration at a time *)

Lemma split_loop_step ss cell result :
  split_loop ss cell result =
  let '(ss', cell') := getline ss cell "," in
  if failbit ss' then result else split_loop ss' cell' (result ++ [cell']).
Proof.
  funelim (split_loop ss cell result);
    match goal with
    | Hg : getline _ _ _ = (?s, _), Hf : failbit ?s = _ |- _ =>
        rewrite Hg; simpl; rewrite Hf; reflexivity
    end.
Qed.

Lemma index_loop_step headers p a r file line line_num hashmap cerr :
  index_loop headers p a r file line line_num hashmap cerr =
  let '(file', line') := getline file line LF in
  if failbit file' then Some (file', line_num, hashmap, cerr)
  else
    match index_body headers p a r line' line_num hashmap cerr with
    | None => None
    | Some (line_num', hashmap', cerr') =>
        index_loop headers p a r file' line' line_num' hashmap' cerr'
    end.
Proof.
  funelim (index_loop headers p a r file line line_num hashmap cerr);
    match goal with
    | Hg : getline _ _ _ = (?s, _), Hf : failbit ?s = _ |- _ =>
        rewrite Hg; simpl; rewrite Hf
    end;
    try reflexivity;
    match goal with
    | Hb : index_body _ _ _ _ _ _ _ _ = _ |- _ => rewrite Hb; reflexivity
    end.
Qed.

(** ** What a [getline] loop reads *)

Lemma segments_length delim s :
  length (segments delim s) = S (count_delim delim s).
Proof.
  induction s as [|c s IH]; simpl; [reflexivity|].
  destruct (Ascii.eqb c delim); simpl; [by rewrite IH|].
  destruct (segments delim s); simpl in *; lia.
Qed.

Lemma segments_cons delim s : ∃ seg segs, segments delim s = seg :: segs.
Proof.
  pose proof (segments_length delim s) as H.
  destruct (segments delim s) as [|seg segs]; [discriminate|eauto].
Qed.

Lemma extract_segments delim buf :
  match extract delim buf with
  | (cell, Some rest) => segments delim buf = cell :: segments delim rest
  | (cell, None) => segments delim buf = [cell]
  end.
Proof.
  induction buf as [|c buf IH]; simpl; [reflexivity|].
  destruct (Ascii.eqb c delim); [reflexivity|].
  destruct (extract delim buf) as [cell [rest|]]; rewrite IH; reflexivity.
Qed.

Lemma drop_final_empty_cons x l :
  l ≠ [] → drop_final_empty (x :: l) = x :: drop_final_empty l.
Proof. destruct l; [congruence|reflexivity]. Qed.

Lemma getline_fail delim strm str strm' str' :
  getline strm str delim = (strm', str') →
  failbit strm' = true →
  reads delim strm = [] ∧ strm' = drained strm.
Proof.
  unfold getline, reads, drained.
  destruct (good strm) eqn:G.
  - pose proof (extract_segments delim (rdbuf strm)) as S.
    destruct (extract delim (rdbuf strm)) as [cell [rest|]].
    + intros [= <- <-]; simpl; discriminate.
    + intros [= <- <-]; simpl. intros E. rewrite S. simpl. rewrite E.
      apply String.eqb_eq in E. by subst.
  - by intros [= <- <-].
Qed.

Lemma getline_ok delim strm str strm' str' :
  getline strm str delim = (strm', str') →
  failbit strm' = false →
  reads delim strm = str' :: reads delim strm' ∧ drained strm' = drained strm.
Proof.
  unfold getline, reads, drained.
  destruct (good strm) eqn:G.
  - pose proof (extract_segments delim (rdbuf strm)) as S.
    destruct (extract delim (rdbuf strm)) as [cell [rest|]].
    + intros [= <- <-] _; simpl. rewrite S. split; [|reflexivity].
      apply drop_final_empty_cons.
      destruct (segments_cons delim rest) as (? & ? & ->). discriminate.
    + intros [= <- <-]; simpl. intros E. rewrite S. simpl. by rewrite E.
  - intros [= <- <-]; simpl. discriminate.
Qed.

Lemma split_loop_reads ss cell result :
  split_loop ss cell result = result ++ reads "," ss.
Proof.
  funelim (split_loop ss cell result).
  - match goal with
    | Hg : getline _ _ _ = _, Hf : failbit _ = true |- _ =>
        destruct (getline_fail _ _ _ _ _ Hg Hf) as [-> _]
    end.
    by rewrite app_nil_r.
  - match goal with
    | Hg : getline _ _ _ = _, Hf : failbit _ = false |- _ =>
        destruct (getline_ok _ _ _ _ _ Hg Hf) as [-> _]
    end.
    match goal with IH : split_loop _ _ _ = _ ++ _ |- _ => rewrite IH end.
    by rewrite <- app_assoc.
Qed.

(** The splitter returns the pieces of the line, without the last piece
    when it is empty. *)
Lemma split_csv_row_segments line :
  split_csv_row line = drop_final_empty (segments "," line).
Proof. unfold split_csv_row. by rewrite split_loop_reads. Qed.

Lemma segments_singleton delim s x : segments delim s = [x] → x = s.
Proof.
  revert x. induction s as [|c s IH]; intros x; simpl.
  - by intros [= <-].
  - destruct (Ascii.eqb c delim).
    + destruct (segments_cons delim s) as (? & ? & ->). discriminate.
    + destruct (segments delim s) as [|seg segs] eqn:E.
      * destruct (segments_cons delim s) as (? & ? & H).
        rewrite E in H. discriminate.
      * intros [= <- ->]. by rewrite (IH seg eq_refl).
Qed.

Lemma removelast_cons {A} (x : A) (l : list A) :
  l ≠ [] → removelast (x :: l) = x :: removelast l.
Proof. destruct l; [congruence|reflexivity]. Qed.

Lemma drop_final_empty_open_ended delim s :
  drop_final_empty (segments delim s) =
  if open_ended delim s then removelast (segments delim s)
  else segments delim s.
Proof.
  induction s as [|c s IH]; [reflexivity|].
  destruct (segments_cons delim s) as (seg & segs & E).
  cbn [segments open_ended]. rewrite E in *.
  destruct (Ascii.eqb c delim) eqn:Ec.
  - rewrite drop_final_empty_cons by discriminate. rewrite IH.
    destruct s as [|c' s']; [reflexivity|].
    destruct (open_ended delim (String c' s')); reflexivity.
  - destruct s as [|c' s'].
    + by injection E as <- <-.
    + destruct segs as [|seg' segs].
      * apply segments_singleton in E as ->.
        cbn in IH |- *.
        destruct (match s' with
                  | EmptyString => Ascii.eqb c' delim
                  | String _ _ => open_ended delim s'
                  end); [discriminate|done].
      * rewrite drop_final_empty_cons by discriminate.
        rewrite (drop_final_empty_cons seg (seg' :: segs)) in IH
          by discriminate.
        destruct (open_ended delim (String c' s')).
        -- rewrite removelast_cons by discriminate.
           rewrite (removelast_cons seg (seg' :: segs)) in IH by discriminate.
           f_equal. injection IH as IH. exact IH.
        -- f_equal. injection IH as IH. exact IH.
Qed.

Lemma removelast_length {A} (l : list A) :
  length (removelast l) = pred (length l).
Proof.
  induction l as [|x l IH]; [reflexivity|].
  destruct l; [reflexivity|]. cbn [removelast length] in *. by rewrite IH.
Qed.

(** ** The index loop over the lines it reads *)

Lemma index_loop_rows headers p a r file line line_num hashmap cerr :
  index_loop headers p a r file line line_num hashmap cerr =
  match index_rows headers p a r (reads LF file) line_num hashmap cerr with
  | None => None
  | Some (n, h, c) => Some (drained file, n, h, c)
  end.
Proof.
  funelim (index_loop headers p a r file line line_num hashmap cerr).
  - match goal with
    | Hg : getline _ _ _ = _, Hf : failbit _ = true |- _ =>
        destruct (getline_fail _ _ _ _ _ Hg Hf) as [-> ->]
    end.
    reflexivity.
  - match goal with
    | Hg : getline _ _ _ = _, Hf : failbit _ = false |- _ =>
        destruct (getline_ok _ _ _ _ _ Hg Hf) as [-> <-]
    end.
    simpl.
    match goal with
    | Hb : index_body _ _ _ _ _ _ _ _ = _ |- _ => rewrite Hb
    end.
    match goal with IH : index_loop _ _ _ _ _ _ _ _ _ = _ |- _ => apply IH end.
  - match goal with
    | Hg : getline _ _ _ = _, Hf : failbit _ = false |- _ =>
        destruct (getline_ok _ _ _ _ _ Hg Hf) as [-> _]
    end.
    simpl.
    match goal with
    | Hb : index_body _ _ _ _ _ _ _ _ = _ |- _ => by rewrite Hb
    end.
Qed.

Lemma header_getline content :
  getline (open content) EmptyString LF =
    (after_header content, header_line content) ∧
  reads LF (after_header content) = data_lines content ∧
  drained (after_header content) = drained (open content).
Proof.
  unfold after_header, header_line, data_lines, file_lines.
  destruct (getline (open content) EmptyString LF) as [file line] eqn:G.
  simpl. destruct (failbit file) eqn:F.
  - destruct (getline_fail _ _ _ _ _ G F) as [R D].
    rewrite R. simpl. split_and!.
    + f_equal. revert G. unfold getline. simpl.
      destruct (extract LF content) as [cell [rest|]]; intros [= <- <-].
      * discriminate.
      * simpl in F. by apply String.eqb_eq in F.
    + subst file. reflexivity.
    + subst file. reflexivity.
  - destruct (getline_ok _ _ _ _ _ G F) as [R D].
    rewrite R. simpl. done.
Qed.

(** ** Sizes *)

Lemma drop_final_empty_segments_length delim s :
  (length (drop_final_empty (segments delim s)) ≤ String.length s)%nat.
Proof.
  induction s as [|c s IH]; simpl; [lia|].
  destruct (segments_cons delim s) as (seg & segs & E).
  rewrite E in *. destruct (Ascii.eqb c delim).
  - rewrite drop_final_empty_cons by discriminate.
    cbn [length String.length]. lia.
  - destruct segs as [|seg' segs].
    + cbn. lia.
    + rewrite drop_final_empty_cons by discriminate.
      rewrite drop_final_empty_cons in IH by discriminate.
      cbn [length String.length] in *. lia.
Qed.

Lemma segments_elem_length delim s x :
  x ∈ segments delim s → (String.length x ≤ String.length s)%nat.
Proof.
  revert x. induction s as [|c s IH]; simpl; intros x.
  - intros ->%list_elem_of_singleton. simpl. lia.
  - destruct (Ascii.eqb c delim).
    + intros [->|H]%elem_of_cons; simpl; [lia|]. apply IH in H. lia.
    + destruct (segments_cons delim s) as (seg & segs & E). rewrite E in *.
      intros [->|H]%elem_of_cons; simpl.
      * specialize (IH seg ltac:(left)). lia.
      * specialize (IH x ltac:(by right)). lia.
Qed.

Lemma drop_final_empty_elem l x : x ∈ drop_final_empty l → x ∈ l.
Proof.
  induction l as [|y l IH]; simpl; [done|].
  destruct l as [|z l].
  - destruct (String.eqb y EmptyString); [by intros ?%elem_of_nil|done].
  - intros [->|H]%elem_of_cons; [left|right; by apply IH].
Qed.

Lemma reads_length delim strm :
  (length (reads delim strm) ≤ String.length (rdbuf strm))%nat.
Proof.
  unfold reads. destruct (good strm); simpl; [|lia].
  apply drop_final_empty_segments_length.
Qed.

Lemma reads_elem_length delim strm x :
  x ∈ reads delim strm → (String.length x ≤ String.length (rdbuf strm))%nat.
Proof.
  unfold reads. destruct (good strm); [|by intros ?%elem_of_nil].
  intros H%drop_final_empty_elem. by eapply segments_elem_length.
Qed.

Lemma split_csv_row_length line :
  (length (split_csv_row line) ≤ String.length line)%nat.
Proof.
  rewrite split_csv_row_segments. apply drop_final_empty_segments_length.
Qed.

Lemma header_line_length content :
  (String.length (header_line content) ≤ String.length content)%nat.
Proof.
  unfold header_line.
  destruct (file_lines content) as [|h t] eqn:E; simpl; [lia|].
  apply (reads_elem_length LF (open content)).
  fold (file_lines content). rewrite E. left.
Qed.

Lemma header_fields_length content :
  (length (header_fields content) ≤ String.length content)%nat.
Proof.
  unfold header_fields.
  pose proof (split_csv_row_length (header_line content)).
  pose proof (header_line_length content). lia.
Qed.

Lemma data_lines_length content :
  (length (data_lines content) ≤ String.length content)%nat.
Proof.
  unfold data_lines.
  pose proof (reads_length LF (open content)) as H.
  fold (file_lines content) in H. simpl in H.
  destruct (file_lines content); simpl in *; lia.
Qed.

(** ** Header resolution *)

Lemma column_cons name h rest i dflt :
  column name (h :: rest) i dflt =
  column name rest (i + 1) (if String.eqb h name then i else dflt).
Proof.
  unfold column. simpl. destruct (last_index name rest); [lia|].
  destruct (String.eqb h name); [lia|reflexivity].
Qed.

Lemma find_columns_column headers i p a r :
  0 ≤ i → i + Z.of_nat (length headers) < 2 ^ 64 →
  find_columns headers i p a r =
  (column "package" headers i p,
   column "architecture" headers i a,
   column "release" headers i r).
Proof.
  revert i p a r. induction headers as [|h rest IH]; intros i p a r Hi Hn.
  - reflexivity.
  - simpl length in Hn. cbn [find_columns].
    assert (wrap (i + 1) = i + 1) as -> by (apply Z.mod_small; lia).
    rewrite IH by lia. by rewrite !column_cons.
Qed.

Lemma last_index_Some name headers j :
  last_index name headers = Some j →
  headers !! j = Some name ∧
  ∀ k, (j < k)%nat → headers !! k ≠ Some name.
Proof.
  revert j. induction headers as [|h rest IH]; intros j; simpl; [done|].
  destruct (last_index name rest) as [j'|] eqn:E.
  - intros [= <-]. destruct (IH j' eq_refl) as [H1 H2]. split; [done|].
    intros [|k] Hk; [lia|]. simpl. apply H2. lia.
  - destruct (String.eqb h name) eqn:Eh; [|done].
    intros [= <-]. apply String.eqb_eq in Eh as ->. split; [done|].
    intros [|k] Hk; [lia|]. simpl. intros Hin.
    assert (∀ l, last_index name l = None → name ∉ l) as Hnone.
    { clear. induction l as [|x l IHl]; simpl; [by intros _ ?%elem_of_nil|].
      destruct (last_index name l); [done|].
      destruct (String.eqb x name) eqn:Ex; [done|].
      intros _ [->|?]%elem_of_cons; [|by apply IHl].
      by rewrite String.eqb_refl in Ex. }
    apply (Hnone _ E). by eapply list_elem_of_lookup_2.
Qed.

Lemma last_index_None name headers :
  last_index name headers = None ↔ name ∉ headers.
Proof.
  induction headers as [|h rest IH]; simpl.
  - split; [by intros _ ?%elem_of_nil|done].
  - destruct (last_index name rest) as [j|] eqn:E.
    + split; [done|]. intros Hn. exfalso. apply Hn. right.
      destruct (last_index_Some _ _ _ E) as [H _].
      by eapply list_elem_of_lookup_2.
    + destruct (String.eqb h name) eqn:Eh.
      * apply String.eqb_eq in Eh as ->. split; [done|].
        intros Hn. exfalso. apply Hn. left.
      * apply String.eqb_neq in Eh. split; [|done].
        intros _ [->|?]%elem_of_cons; [done|]. by apply IH.
Qed.

Lemma last_index_lt name headers j :
  last_index name headers = Some j → (j < length headers)%nat.
Proof.
  intros [H _]%last_index_Some. by eapply lookup_lt_Some.
Qed.

Lemma find_columns_absent headers i p a r :
  ("package" ∉ headers → (find_columns headers i p a r).1.1 = p) ∧
  ("architecture" ∉ headers → (find_columns headers i p a r).1.2 = a) ∧
  ("release" ∉ headers → (find_columns headers i p a r).2 = r).
Proof.
  revert i p a r. induction headers as [|h rest IH]; intros i p a r.
  - done.
  - cbn [find_columns].
    destruct (IH (wrap (i + 1))
                (if String.eqb h "package" then i else p)
                (if String.eqb h "architecture" then i else a)
                (if String.eqb h "release" then i else r)) as (Hp & Ha & Hr).
    split_and!; intros Hn; apply not_elem_of_cons in Hn as [Hne Hn].
    + rewrite Hp by done.
      by destruct (String.eqb_spec h "package") as [->|_].
    + rewrite Ha by done.
      by destruct (String.eqb_spec h "architecture") as [->|_].
    + rewrite Hr by done.
      by destruct (String.eqb_spec h "release") as [->|_].
Qed.

Lemma npos_eq : npos = 2 ^ 64 - 1.
Proof. reflexivity. Qed.

Lemma resolve_last headers :
  Z.of_nat (length headers) < 2 ^ 64 →
  resolve headers =
  (column "package" headers 0 npos,
   column "architecture" headers 0 npos,
   column "release" headers 0 npos).
Proof. intros H. unfold resolve. apply find_columns_column; lia. Qed.

Lemma column_valid name headers :
  name ∈ headers →
  Z.of_nat (length headers) < 2 ^ 64 →
  in_header headers (column name headers 0 npos) ∧
  column name headers 0 npos ≠ npos.
Proof.
  intros Hin Hn. unfold column, in_header.
  destruct (last_index name headers) as [j|] eqn:E.
  - apply last_index_lt in E. rewrite npos_eq. lia.
  - apply last_index_None in E. done.
Qed.

(** ** The index that the loop builds *)

Lemma at_index_Some row i :
  0 ≤ i < Z.of_nat (length row) → is_Some (at_index row i).
Proof.
  intros H. unfold at_index.
  destruct (Z.leb_spec 0 i), (Z.ltb_spec i (Z.of_nat (length row)));
    try lia; simpl.
  apply lookup_lt_is_Some. lia.
Qed.

Lemma make_key_Some row p a r :
  0 ≤ p < Z.of_nat (length row) →
  0 ≤ a < Z.of_nat (length row) →
  0 ≤ r < Z.of_nat (length row) →
  is_Some (make_key row p a r).
Proof.
  intros [x Hx]%at_index_Some [y Hy]%at_index_Some [z Hz]%at_index_Some.
  unfold make_key. rewrite Hx, Hy, Hz. simpl. eauto.
Qed.

Lemma index_rows_spec headers lines n h c :
  let '(p, a, r) := resolve headers in
  in_header headers p → in_header headers a → in_header headers r →
  0 ≤ n → n + Z.of_nat (length lines) < 2 ^ 64 →
  index_rows headers p a r lines n h c =
  Some (n + Z.of_nat (length lines),
        foldl (index_insert headers) h lines,
        c ++ (warning <$> malformed_from headers (Z.to_nat n + 1) lines)).
Proof.
  destruct (resolve headers) as [[p a] r] eqn:R.
  intros Hp Ha Hr. revert n h c.
  induction lines as [|line rest IH]; intros n h c Hn Hlen.
  - simpl. by rewrite Z.add_0_r, app_nil_r.
  - cbn [index_rows malformed_from foldl]. unfold index_body.
    assert (wrap (n + 1) = n + 1) as ->
      by (apply Z.mod_small; simpl length in Hlen; lia).
    unfold index_insert at 2. unfold well_formed, row_key. rewrite R.
    destruct (Nat.eqb_spec (length (split_csv_row line)) (length headers))
      as [E|E]; simpl negb; cbv iota.
    + destruct (make_key_Some (split_csv_row line) p a r) as [key K];
        try (unfold in_header in *; lia).
      rewrite K. simpl. rewrite IH by (simpl length in Hlen; lia).
      do 2 f_equal; [f_equal; simpl length; lia|].
      do 3 f_equal. lia.
    + rewrite IH by (simpl length in Hlen; lia).
      do 2 f_equal; [f_equal; simpl length; lia|].
      rewrite <- app_assoc. f_equal. simpl. f_equal.
      * unfold warning. f_equal. lia.
      * do 2 f_equal. lia.
Qed.

(** ** The two ways the program runs on an opened file *)

Lemma process_resolve content :
  process content =
  let '(package_idx, arch_idx, release_idx) :=
    resolve (header_fields content) in
  if (package_idx =? npos) || (arch_idx =? npos) || (release_idx =? npos) then
    Some (1, {| file := Some (after_header content); hashmap := None;
                cout := []; cerr := [missing_msg] |})
  else
    match index_rows (header_fields content) package_idx arch_idx release_idx
            (data_lines content) 1 ∅ [] with
    | None => None
    | Some (_, h, c) =>
        Some (0, {| file := Some (drained (open content));
                    hashmap := Some (query h query_key [loaded_msg (size h)]).1;
                    cout := (query h query_key [loaded_msg (size h)]).2;
                    cerr := c |})
    end.
Proof.
  unfold process.
  destruct (header_getline content) as (G & R & D). rewrite G.
  fold (header_fields content). fold (resolve (header_fields content)).
  destruct (resolve (header_fields content)) as [[p a] r].
  destruct ((p =? npos) || (a =? npos) || (r =? npos)); [reflexivity|].
  rewrite index_loop_rows, R, D.
  destruct (index_rows _ _ _ _ _ _ _ _) as [[[n h] c]|]; [|reflexivity].
  change ("openssl" +:+ "|" +:+ "amd64" +:+ "|" +:+ "22.04") with query_key.
  by destruct (query h query_key [loaded_msg (size h)]).
Qed.

(** A header that lacks a required name: exit code 1 with the one
    message, the file read no further than line 1, no map. *)
Lemma process_missing content :
  ¬ header_valid (header_fields content) →
  process content =
  Some (1, {| file := Some (after_header content); hashmap := None;
              cout := []; cerr := [missing_msg] |}).
Proof.
  intros Hmiss. rewrite process_resolve. unfold resolve.
  destruct (find_columns_absent (header_fields content) 0 npos npos npos)
    as (Hp & Ha & Hr).
  destruct (find_columns _ _ _ _ _) as [[p a] r]. simpl in *.
  destruct (decide ("package" ∈ header_fields content)) as [Ip|Ip].
  2: { rewrite (Hp Ip), Z.eqb_refl. reflexivity. }
  destruct (decide ("architecture" ∈ header_fields content)) as [Ia|Ia].
  2: { rewrite (Ha Ia), Z.eqb_refl, orb_true_r. reflexivity. }
  destruct (decide ("release" ∈ header_fields content)) as [Ir|Ir].
  2: { rewrite (Hr Ir), Z.eqb_refl, orb_true_r. reflexivity. }
  destruct Hmiss. done.
Qed.

Lemma header_fields_small content :
  file_size_ok content →
  Z.of_nat (length (header_fields content)) < 2 ^ 64.
Proof.
  unfold file_size_ok. pose proof (header_fields_length content). lia.
Qed.

(** A header with the three names: the positions are found, no row is
    read out of range, and the program returns 0 with the index of the data
    lines and one warning for each malformed line. *)
Lemma process_valid content :
  header_valid (header_fields content) →
  file_size_ok content →
  process content =
  let h := index_of (header_fields content) (data_lines content) in
  Some (0, {| file := Some (drained (open content));
              hashmap := Some h;
              cout := (query h query_key [loaded_msg (size h)]).2;
              cerr := warning <$>
                        malformed_from (header_fields content) 2
                          (data_lines content) |}).
Proof.
  intros (Ip & Ia & Ir) Hsize. rewrite process_resolve.
  pose proof (header_fields_small content Hsize) as Hh.
  pose proof (index_rows_spec (header_fields content) (data_lines content)
                1 ∅ []) as Hrows.
  rewrite (resolve_last _ Hh) in *.
  destruct (column_valid _ _ Ip Hh) as [Bp Np].
  destruct (column_valid _ _ Ia Hh) as [Ba Na].
  destruct (column_valid _ _ Ir Hh) as [Br Nr].
  apply Z.eqb_neq in Np, Na, Nr. rewrite Np, Na, Nr. simpl orb. cbv iota.
  rewrite Hrows; try done.
  - simpl. do 3 f_equal.
    unfold query. by destruct (_ !! _).
  - pose proof (data_lines_length content). unfold file_size_ok in Hsize. lia.
Qed.

(** On a file of a possible size the program never indexes a row out of
    range: it always returns. *)
Lemma process_defined content :
  file_size_ok content → is_Some (process content).
Proof.
  intros Hs.
  destruct (decide (header_valid (header_fields content))) as [Hv|Hv].
  - rewrite (process_valid content Hv Hs). eauto.
  - rewrite (process_missing content Hv). eauto.
Qed.

(** ** Properties of the index *)

Lemma keys_cons headers line rest :
  keys headers (line :: rest) =
  match line_key headers line with
  | Some key => key :: keys headers rest
  | None => keys headers rest
  end.
Proof. reflexivity. Qed.

Lemma index_insert_stored headers m line key :
  line_key headers line = Some key →
  index_insert headers m line = <[key := split_csv_row line]> m.
Proof.
  unfold line_key, index_insert.
  destruct (well_formed headers line); [|done]. by intros ->.
Qed.

Lemma index_insert_skipped headers m line :
  well_formed headers line = false → index_insert headers m line = m.
Proof. unfold index_insert. by intros ->. Qed.

Lemma index_insert_lookup_ne headers m line key :
  line_key headers line ≠ Some key →
  index_insert headers m line !! key = m !! key.
Proof.
  unfold line_key, index_insert.
  destruct (well_formed headers line); [|done].
  destruct (row_key headers (split_csv_row line)) as [k|]; [|done].
  intros Hne. apply lookup_insert_ne. congruence.
Qed.

Lemma foldl_index_insert_lookup_ne headers lines m key :
  (∀ line, line ∈ lines → line_key headers line ≠ Some key) →
  foldl (index_insert headers) m lines !! key = m !! key.
Proof.
  revert m. induction lines as [|line rest IH]; intros m Hall; [done|].
  simpl. rewrite IH by (intros l Hl; apply Hall; by right).
  apply index_insert_lookup_ne, Hall. left.
Qed.

Lemma foldl_index_insert_dom headers lines m :
  dom (foldl (index_insert headers) m lines) =
  dom m ∪ list_to_set (keys headers lines).
Proof.
  revert m. induction lines as [|line rest IH]; intros m.
  - simpl. by rewrite (right_id_L ∅ (∪)).
  - cbn [foldl]. rewrite IH, keys_cons.
    destruct (line_key headers line) as [key|] eqn:K.
    + rewrite (index_insert_stored _ _ _ _ K), dom_insert_L.
      cbn [list_to_set]. rewrite (comm_L (∪) {[key]} (dom m)).
      by rewrite (assoc_L (∪)).
    + assert (index_insert headers m line = m) as ->; [|done].
      unfold line_key in K. unfold index_insert.
      destruct (well_formed headers line); [|done]. by rewrite K.
Qed.

Lemma list_to_set_remove_dups_size (l : list string) :
  size (list_to_set l : gset string) = length (remove_dups l).
Proof.
  rewrite <- (size_list_to_set (C := gset string) (remove_dups l))
    by apply NoDup_remove_dups.
  f_equal. apply set_eq. intros x.
  by rewrite !elem_of_list_to_set, elem_of_remove_dups.
Qed.

Lemma index_of_size headers lines :
  size (index_of headers lines) = length (remove_dups (keys headers lines)).
Proof.
  unfold index_of. rewrite <- size_dom, foldl_index_insert_dom, dom_empty_L.
  rewrite (left_id_L ∅ (∪)). apply list_to_set_remove_dups_size.
Qed.

(** ** Properties of the warnings *)


Lemma malformed_from_elem headers k lines x :
  x ∈ malformed_from headers k lines ↔
  ∃ i line, x = (k + i)%nat ∧ lines !! i = Some line ∧
            well_formed headers line = false.
Proof.
  revert k. induction lines as [|l rest IH]; intros k; simpl.
  - split; [by intros ?%elem_of_nil|]. by intros (i & line & _ & ? & _).
  - destruct (well_formed headers l) eqn:W.
    + rewrite IH. split.
      * intros (i & line & -> & Hi & Hw). exists (S i), line.
        split_and!; [lia|done|done].
      * intros ([|i] & line & -> & Hi & Hw); simpl in Hi.
        { injection Hi as ->. congruence. }
        exists i, line. split_and!; [lia|done|done].
    + rewrite elem_of_cons, IH. split.
      * intros [->|(i & line & -> & Hi & Hw)].
        { exists 0%nat, l. split_and!; [lia|done|done]. }
        exists (S i), line. split_and!; [lia|done|done].
      * intros ([|i] & line & -> & Hi & Hw); simpl in Hi.
        { left. lia. }
        right. exists i, line. split_and!; [lia|done|done].
Qed.

Lemma string_app_length s t :
  String.length (s +:+ t) = (String.length s + String.length t)%nat.
Proof.
  induction s as [|c s IH]; [reflexivity|].
  change (S (String.length (s +:+ t)) =
          S (String.length s + String.length t)).
  by rewrite IH.
Qed.

Lemma string_app_inv_r s t u : s +:+ u = t +:+ u → s = t.
Proof.
  intros H.
  assert (String.length s = String.length t) as Hlen.
  { apply (f_equal String.length) in H. rewrite !string_app_length in H. lia. }
  revert t H Hlen. induction s as [|c s IH]; intros [|d t] H Hlen;
    try done.
  change (String c (s +:+ u) = String d (t +:+ u)) in H.
  injection H as -> H. injection Hlen as Hlen. f_equal. by apply IH.
Qed.

Lemma warning_inj k k' : warning k = warning k' → k = k'.
Proof.
  unfold warning, warning_msg. intros H.
  apply (inj (String.app _)) in H.
  apply string_app_inv_r in H. apply (inj pretty) in H. lia.
Qed.


(** ** Required names *)

Lemma row_key_triple headers row :
  row_key headers row =
  (λ '(p, a, r), p +:+ "|" +:+ a +:+ "|" +:+ r) <$> triple headers row.
Proof.
  unfold row_key, triple, make_key.
  destruct (resolve headers) as [[p a] r].
  destruct (at_index row p); [|done].
  destruct (at_index row a); [|done].
  by destruct (at_index row r).
Qed.

Lemma missing_nil headers : missing headers = [] ↔ header_valid headers.
Proof.
  unfold missing, required, header_valid. split.
  - intros H.
    split_and!; apply dec_stable; intros Hn;
      eapply (filter_nil_not_elem_of _ _ _ H Hn); repeat constructor.
  - intros (Hp & Ha & Hr).
    rewrite !filter_cons_False, filter_nil; auto.
Qed.

Lemma warning_not_missing k : warning k ≠ missing_msg.
Proof. unfold warning, warning_msg, missing_msg. cbn. discriminate. Qed.

Lemma header_line_empty content :
  content = EmptyString ∨ (∃ rest, content = String LF rest) →
  header_line content = EmptyString.
Proof.
  unfold header_line, file_lines, reads.
  intros [->|[rest ->]]; [reflexivity|].
  cbn. destruct (segments_cons LF rest) as (seg & segs & ->). reflexivity.
Qed.

(** ** The text of the found line *)

Lemma string_app_assoc s t u : (s +:+ t) +:+ u = s +:+ t +:+ u.
Proof.
  induction s as [|c s IH]; [reflexivity|].
  change (String c ((s +:+ t) +:+ u) = String c (s +:+ t +:+ u)).
  by rewrite IH.
Qed.

Lemma string_app_nil_r s : s +:+ EmptyString = s.
Proof.
  induction s as [|c s IH]; [reflexivity|].
  change (String c (s +:+ EmptyString) = String c s). by rewrite IH.
Qed.

Lemma text_app l1 l2 : text (l1 ++ l2) = text l1 +:+ text l2.
Proof.
  induction l1 as [|x l1 IH]; [reflexivity|].
  cbn [app text foldr]. fold (text (l1 ++ l2)). fold (text l1).
  by rewrite IH, string_app_assoc.
Qed.

(** Every field followed by the separator is the fields joined by the
    separator, and one separator more. *)
Lemma text_fields_separated row :
  row ≠ [] →
  text ((λ col, col +:+ " | ") <$> row) =
  String.concat " | " row +:+ " | ".
Proof.
  induction row as [|x row IH]; [done|]. intros _.
  destruct row as [|y row].
  - cbn [fmap list_fmap text foldr String.concat].
    by rewrite string_app_nil_r.
  - change (text ((λ col, col +:+ " | ") <$> x :: y :: row))
      with ((x +:+ " | ") +:+ text ((λ col, col +:+ " | ") <$> y :: row)).
    rewrite IH by done.
    change (String.concat " | " (x :: y :: row))
      with (x +:+ " | " +:+ String.concat " | " (y :: row)).
    by rewrite !string_app_assoc.
Qed.

Lemma has_suffix_app pre s : has_suffix s (pre +:+ s) = true.
Proof.
  induction pre as [|c pre IH].
  - change (EmptyString +:+ s) with s.
    destruct s; cbn [has_suffix]; by rewrite String.eqb_refl.
  - change (String c pre +:+ s) with (String c (pre +:+ s)).
    cbn [has_suffix]. rewrite IH. apply orb_true_r.
Qed.

(** ** Resolved positions *)

Lemma last_index_present name headers :
  name ∈ headers → ∃ j, last_index name headers = Some j ∧
                        last_at name headers j ∧ (j < length headers)%nat.
Proof.
  intros Hin. destruct (last_index name headers) as [j|] eqn:E.
  - exists j. split; [done|]. split; [by apply last_index_Some|].
    by eapply last_index_lt.
  - by apply last_index_None in E.
Qed.

Lemma at_index_nat row (j : nat) :
  (j < length row)%nat → at_index row (Z.of_nat j) = Some (row !!! j).
Proof.
  intros Hj. unfold at_index.
  destruct (Z.leb_spec 0 (Z.of_nat j)),
           (Z.ltb_spec (Z.of_nat j) (Z.of_nat (length row))); try lia.
  cbn [andb]. rewrite Nat2Z.id.
  destruct (lookup_lt_is_Some_2 row j Hj) as [x Hx].
  by rewrite Hx, (list_lookup_total_correct _ _ _ Hx).
Qed.

Lemma make_key_nat row (jp ja jr : nat) :
  (jp < length row)%nat → (ja < length row)%nat → (jr < length row)%nat →
  make_key row (Z.of_nat jp) (Z.of_nat ja) (Z.of_nat jr) =
  Some (key_at row jp ja jr).
Proof.
  intros Hp Ha Hr. unfold make_key.
  by rewrite !at_index_nat by done.
Qed.

Lemma foldl_pointwise {A B} (f g : A → B → A) (l : list B) (a : A) :
  (∀ a x, f a x = g a x) → foldl f a l = foldl g a l.
Proof.
  intros Hfg. revert a. induction l as [|x l IH]; intros a; [done|].
  cbn [foldl]. by rewrite Hfg, IH.
Qed.

Lemma resolve_positions headers :
  header_valid headers →
  Z.of_nat (length headers) < 2 ^ 64 →
  ∃ jp ja jr : nat,
    (last_at "package" headers jp ∧ (jp < length headers)%nat) ∧
    (last_at "architecture" headers ja ∧ (ja < length headers)%nat) ∧
    (last_at "release" headers jr ∧ (jr < length headers)%nat) ∧
    resolve headers = (Z.of_nat jp, Z.of_nat ja, Z.of_nat jr).
Proof.
  intros (Ip & Ia & Ir) Hh.
  destruct (last_index_present _ _ Ip) as (jp & Ep & Lp & Bp).
  destruct (last_index_present _ _ Ia) as (ja & Ea & La & Ba).
  destruct (last_index_present _ _ Ir) as (jr & Er & Lr & Br).
  exists jp, ja, jr. split_and!; try assumption.
  rewrite (resolve_last _ Hh). unfold column.
  by rewrite Ep, Ea, Er, !Z.add_0_l.
Qed.

Lemma index_insert_at headers (jp ja jr : nat) m line :
  resolve headers = (Z.of_nat jp, Z.of_nat ja, Z.of_nat jr) →
  (jp < length headers)%nat → (ja < length headers)%nat →
  (jr < length headers)%nat →
  index_insert headers m line =
  if well_formed headers line
  then <[key_at (split_csv_row line) jp ja jr := split_csv_row line]> m
  else m.
Proof.
  intros R Bp Ba Br. unfold index_insert, row_key. rewrite R.
  destruct (well_formed headers line) eqn:W; [|done].
  unfold well_formed in W. apply Nat.eqb_eq in W.
  by rewrite make_key_nat by (rewrite W; assumption).
Qed.

(** ** Permuted columns *)

Lemma permute_length σ row : length (permute σ row) = length σ.
Proof. apply length_fmap. Qed.

Lemma permute_lookup σ row j i :
  σ !! j = Some i → permute σ row !! j = Some (row !!! i).
Proof. intros H. unfold permute. by rewrite list_lookup_fmap, H. Qed.

Lemma permute_lookup_total σ row j i :
  σ !! j = Some i → permute σ row !!! j = row !!! i.
Proof.
  intros H. apply list_lookup_total_correct. by apply permute_lookup.
Qed.

(** [permute] by a permutation of the positions is a permutation of the
    row. *)
Lemma permute_Permutation σ row :
  σ ≡ₚ seq 0 (length row) → permute σ row ≡ₚ row.
Proof.
  intros H. unfold permute. rewrite H.
  assert ((λ i, row !!! i) <$> seq 0 (length row) = row) as ->; [|done].
  apply list_eq. intros i. rewrite list_lookup_fmap.
  destruct (decide (i < length row)%nat) as [Hi|Hi].
  - rewrite lookup_seq_lt by done. cbn.
    by rewrite list_lookup_lookup_total_lt.
  - rewrite lookup_seq_ge, lookup_ge_None_2 by lia. done.
Qed.

Section Permuted.

Variable σ : list nat.
Variable headers : list string.
Hypothesis Hσ : σ ≡ₚ seq 0 (length headers).

Lemma perm_length : length σ = length headers.
Proof. by rewrite Hσ, length_seq. Qed.

Lemma perm_lookup_lt j i : σ !! j = Some i → (i < length headers)%nat.
Proof.
  intros H%list_elem_of_lookup_2. rewrite Hσ in H.
  apply elem_of_seq in H. lia.
Qed.

Lemma perm_position i :
  (i < length headers)%nat → ∃ j, σ !! j = Some i.
Proof.
  intros Hi. apply list_elem_of_lookup_1. rewrite Hσ.
  apply elem_of_seq. lia.
Qed.

Lemma perm_position_unique j k i :
  σ !! j = Some i → σ !! k = Some i → j = k.
Proof.
  apply NoDup_lookup. rewrite Hσ. apply NoDup_seq.
Qed.

Lemma only_at_permute name p :
  only_at name headers p →
  ∃ p', σ !! p' = Some p ∧ only_at name (permute σ headers) p'.
Proof.
  intros [Hp Hu].
  destruct (perm_position p) as [p' Hp']; [by eapply lookup_lt_Some|].
  exists p'. split; [done|]. split.
  - rewrite (permute_lookup _ _ _ _ Hp').
    by rewrite (list_lookup_total_correct _ _ _ Hp).
  - intros k Hk.
    destruct (σ !! k) as [i|] eqn:Ek.
    + rewrite (permute_lookup _ _ _ _ Ek) in Hk.
      assert (headers !! i = Some name) as Hi.
      { injection Hk as <-. apply list_lookup_lookup_total_lt.
        by eapply perm_lookup_lt. }
      apply Hu in Hi as ->. by eapply perm_position_unique.
    + unfold permute in Hk. by rewrite list_lookup_fmap, Ek in Hk.
Qed.

End Permuted.

Lemma only_at_last name headers j jl :
  only_at name headers j → last_at name headers jl → jl = j.
Proof. intros [_ Hu] [Hl _]. by apply Hu. Qed.

Lemma header_unambiguous_valid headers :
  header_unambiguous headers → header_valid headers.
Proof.
  intros ([? [Hp _]] & [? [Ha _]] & [? [Hr _]]).
  split_and!; by eapply list_elem_of_lookup_2.
Qed.

Lemma resolve_only_at headers jp ja jr :
  only_at "package" headers jp →
  only_at "architecture" headers ja →
  only_at "release" headers jr →
  Z.of_nat (length headers) < 2 ^ 64 →
  resolve headers = (Z.of_nat jp, Z.of_nat ja, Z.of_nat jr) ∧
  (jp < length headers)%nat ∧ (ja < length headers)%nat ∧
  (jr < length headers)%nat.
Proof.
  intros Op Oa Or Hh.
  assert (header_valid headers) as Hv.
  { apply header_unambiguous_valid. split_and!; eauto. }
  destruct (resolve_positions headers Hv Hh)
    as (lp & la & lr & [Lp Bp] & [La Ba] & [Lr Br] & R).
  rewrite (only_at_last _ _ _ _ Op Lp) in *.
  rewrite (only_at_last _ _ _ _ Oa La) in *.
  rewrite (only_at_last _ _ _ _ Or Lr) in *.
  done.
Qed.

Lemma index_insert_permuted σ headers (jp ja jr jp' ja' jr' : nat) m
    line line' :
  σ ≡ₚ seq 0 (length headers) →
  resolve headers = (Z.of_nat jp, Z.of_nat ja, Z.of_nat jr) →
  resolve (permute σ headers) = (Z.of_nat jp', Z.of_nat ja', Z.of_nat jr') →
  σ !! jp' = Some jp → σ !! ja' = Some ja → σ !! jr' = Some jr →
  permuted_line σ headers line line' →
  index_insert (permute σ headers) (permute σ <$> m) line' =
  permute σ <$> index_insert headers m line.
Proof.
  intros Hσ R R' Sp Sa Sr Hline.
  pose proof (perm_length σ headers Hσ) as Hlen.
  rewrite (index_insert_at headers jp ja jr m line R)
    by (eapply perm_lookup_lt; eauto).
  rewrite (index_insert_at (permute σ headers) jp' ja' jr' _ line' R')
    by (rewrite permute_length; by eapply lookup_lt_Some).
  unfold permuted_line in Hline. unfold well_formed at 1.
  rewrite permute_length, Hlen.
  destruct (well_formed headers line) eqn:W.
  - rewrite Hline, permute_length, Hlen, Nat.eqb_refl, fmap_insert.
    f_equal. unfold key_at.
    by rewrite (permute_lookup_total _ _ _ _ Sp),
      (permute_lookup_total _ _ _ _ Sa), (permute_lookup_total _ _ _ _ Sr).
  - rewrite Hline. unfold well_formed in W. by rewrite W.
Qed.

(** ** Pieces joined and joined texts split *)

Lemma concat_cons sep x y l :
  String.concat sep (x :: y :: l) = x +:+ sep +:+ String.concat sep (y :: l).
Proof. reflexivity. Qed.

Lemma string_app_cons c s t : String c s +:+ t = String c (s +:+ t).
Proof. reflexivity. Qed.

Lemma segments_free delim s x :
  x ∈ segments delim s → count_delim delim x = 0%nat.
Proof.
  revert x. induction s as [|c s IH]; intros x; cbn [segments].
  - by intros ->%list_elem_of_singleton.
  - destruct (Ascii.eqb c delim) eqn:Ec.
    + intros [->|H]%elem_of_cons; [done|by apply IH].
    + destruct (segments_cons delim s) as (seg & segs & E). rewrite E in *.
      intros [->|H]%elem_of_cons.
      * cbn [count_delim]. rewrite Ec. apply IH. left.
      * apply IH. by right.
Qed.

Lemma segments_join delim s :
  String.concat (String delim EmptyString) (segments delim s) = s.
Proof.
  induction s as [|c s IH]; [reflexivity|]. cbn [segments].
  destruct (segments_cons delim s) as (seg & segs & E). rewrite E in *.
  destruct (Ascii.eqb c delim) eqn:Ec.
  - apply Ascii.eqb_eq in Ec as ->. by rewrite concat_cons, IH.
  - destruct segs as [|seg' segs].
    + cbn in IH |- *. by rewrite IH.
    + rewrite concat_cons, string_app_cons. by rewrite <- concat_cons, IH.
Qed.

Lemma segments_app_delim delim s t :
  segments delim (s +:+ String delim t) = segments delim s ++ segments delim t.
Proof.
  induction s as [|c s IH].
  - change (EmptyString +:+ String delim t) with (String delim t).
    cbn [segments]. by rewrite Ascii.eqb_refl.
  - rewrite string_app_cons. cbn [segments]. rewrite IH.
    destruct (Ascii.eqb c delim); [reflexivity|].
    by destruct (segments_cons delim s) as (seg & segs & ->).
Qed.

Lemma segments_whole delim s :
  count_delim delim s = 0%nat → segments delim s = [s].
Proof.
  induction s as [|c s IH]; [reflexivity|]. cbn [count_delim segments].
  destruct (Ascii.eqb c delim); [discriminate|].
  intros H. by rewrite (IH H).
Qed.

Lemma segments_concat delim fields :
  fields ≠ [] →
  Forall (λ x, count_delim delim x = 0%nat) fields →
  segments delim (String.concat (String delim EmptyString) fields) = fields.
Proof.
  induction fields as [|x fields IH]; [done|]. intros _ Hfree.
  apply Forall_cons in Hfree as [Hx Hfree].
  destruct fields as [|y fields].
  - by apply segments_whole.
  - rewrite concat_cons.
    change (String delim EmptyString +:+ ?t) with (String delim t).
    rewrite segments_app_delim, (segments_whole _ _ Hx), IH by done.
    reflexivity.
Qed.

Lemma drop_final_empty_snoc l :
  drop_final_empty (l ++ [EmptyString]) = l.
Proof.
  induction l as [|x l IH]; [reflexivity|].
  change ((x :: l) ++ [EmptyString]) with (x :: (l ++ [EmptyString])).
  rewrite drop_final_empty_cons, IH; [done|]. by destruct l.
Qed.

Lemma drop_final_empty_app l1 l2 :
  l2 ≠ [] → drop_final_empty (l1 ++ l2) = l1 ++ drop_final_empty l2.
Proof.
  intros H2. induction l1 as [|x l1 IH]; [reflexivity|].
  change ((x :: l1) ++ l2) with (x :: (l1 ++ l2)).
  rewrite drop_final_empty_cons, IH; [done|].
  destruct l1; [done|discriminate].
Qed.

Lemma drop_final_empty_id l :
  last l ≠ Some EmptyString → drop_final_empty l = l.
Proof.
  induction l as [|x l IH]; [reflexivity|].
  destruct l as [|y l].
  - cbn. intros H. destruct (String.eqb_spec x EmptyString) as [->|]; done.
  - intros H. rewrite drop_final_empty_cons, IH by done. reflexivity.
Qed.

Lemma open_ended_snoc delim s :
  open_ended delim (s +:+ String delim EmptyString) = true.
Proof.
  induction s as [|c s IH]; [cbn; apply Ascii.eqb_refl|].
  rewrite string_app_cons. cbn [open_ended].
  destruct (s +:+ String delim EmptyString) eqn:E; [|exact IH].
  by destruct s.
Qed.

Lemma open_ended_inv delim s :
  open_ended delim s = true → s ≠ EmptyString →
  ∃ s', s = s' +:+ String delim EmptyString.
Proof.
  induction s as [|c s IH]; [done|]. intros H _. cbn [open_ended] in H.
  destruct s as [|c' s].
  - apply Ascii.eqb_eq in H as ->. by exists EmptyString.
  - destruct (IH H) as [s' ->]; [done|]. by exists (String c s').
Qed.

Lemma ends_with_spec delim s :
  ends_with delim s = true ↔ ∃ s', s = s' +:+ String delim EmptyString.
Proof.
  unfold ends_with. split.
  - intros [Ho Hn]%andb_true_iff. apply open_ended_inv; [done|].
    intros ->. discriminate.
  - intros [s' ->]. rewrite open_ended_snoc. by destruct s'.
Qed.

Lemma split_csv_row_snoc line :
  split_csv_row (line +:+ ",") = segments "," line.
Proof.
  rewrite split_csv_row_segments, segments_app_delim.
  apply drop_final_empty_snoc.
Qed.

Lemma split_csv_row_closed line :
  open_ended "," line = false → split_csv_row line = segments "," line.
Proof.
  intros H. by rewrite split_csv_row_segments, drop_final_empty_open_ended, H.
Qed.

(** ** Composite keys taken apart *)

Lemma extract_whole delim x t :
  count_delim delim x = 0%nat →
  extract delim (x +:+ String delim t) = (x, Some t).
Proof.
  induction x as [|c x IH]; intros H.
  - change (EmptyString +:+ String delim t) with (String delim t).
    cbn [extract]. by rewrite Ascii.eqb_refl.
  - rewrite string_app_cons. cbn [extract count_delim] in *.
    destruct (Ascii.eqb c delim); [discriminate|]. by rewrite (IH H).
Qed.

Lemma key_inj x y z x' y' z' :
  free_of "|" x → free_of "|" y → free_of "|" x' → free_of "|" y' →
  x +:+ "|" +:+ y +:+ "|" +:+ z = x' +:+ "|" +:+ y' +:+ "|" +:+ z' →
  x = x' ∧ y = y' ∧ z = z'.
Proof.
  intros Hx Hy Hx' Hy' H.
  change (x +:+ String "|" (y +:+ String "|" z) =
          x' +:+ String "|" (y' +:+ String "|" z')) in H.
  apply (f_equal (extract "|")) in H.
  rewrite !extract_whole in H by done. injection H as -> H.
  apply (f_equal (extract "|")) in H.
  rewrite !extract_whole in H by done. by injection H as -> ->.
Qed.

Lemma key_segments x y z :
  segments "|" (x +:+ "|" +:+ y +:+ "|" +:+ z) =
  segments "|" x ++ segments "|" y ++ segments "|" z.
Proof.
  change (x +:+ "|" +:+ y +:+ "|" +:+ z)
    with (x +:+ String "|" (y +:+ String "|" z)).
  by rewrite !segments_app_delim.
Qed.

Lemma key_inj_free x y z x' y' z' :
  free_of "|" x' → free_of "|" y' → free_of "|" z' →
  x +:+ "|" +:+ y +:+ "|" +:+ z = x' +:+ "|" +:+ y' +:+ "|" +:+ z' →
  x = x' ∧ y = y' ∧ z = z'.
Proof.
  intros Hx' Hy' Hz' H. apply (f_equal (segments "|")) in H.
  rewrite !key_segments in H.
  rewrite (segments_whole _ _ Hx'), (segments_whole _ _ Hy'),
    (segments_whole _ _ Hz') in H.
  destruct (segments_cons "|" x) as (sx & lx & Ex).
  destruct (segments_cons "|" y) as (sy & ly & Ey).
  destruct (segments_cons "|" z) as (sz & lz & Ez).
  rewrite Ex, Ey, Ez in H.
  assert (lx = [] ∧ ly = [] ∧ lz = []) as (-> & -> & ->).
  { apply (f_equal length) in H.
    repeat (rewrite length_app in H || cbn [length app] in H).
    destruct lx, ly, lz; try done; exfalso;
      repeat (rewrite length_app in H || cbn [length app] in H); lia. }
  apply segments_singleton in Ex, Ey, Ez. cbn [app] in H.
  injection H as H1 H2 H3. split_and!; congruence.
Qed.

(** ** The index, key by key *)

Lemma index_insert_lookup headers m line key :
  index_insert headers m line !! key =
  if decide (line_key headers line = Some key)
  then Some (split_csv_row line) else m !! key.
Proof.
  destruct (decide (line_key headers line = Some key)) as [K|K].
  - rewrite (index_insert_stored _ _ _ _ K). apply lookup_insert_eq.
  - by apply index_insert_lookup_ne.
Qed.

Lemma foldl_index_insert_lookup headers lines m key :
  foldl (index_insert headers) m lines !! key =
  match last_row headers key lines with
  | Some row => Some row
  | None => m !! key
  end.
Proof.
  revert m. induction lines as [|line rest IH]; intros m; [done|].
  cbn [foldl last_row]. rewrite IH.
  destruct (last_row headers key rest); [done|].
  rewrite index_insert_lookup. by destruct (decide _).
Qed.

Lemma last_row_Some headers key lines row :
  last_row headers key lines = Some row →
  ∃ line, line ∈ lines ∧ line_key headers line = Some key ∧
          row = split_csv_row line.
Proof.
  induction lines as [|line rest IH]; [done|]. cbn [last_row].
  destruct (last_row headers key rest) as [row'|].
  - intros [= <-]. destruct (IH eq_refl) as (l & Hl & K & E).
    exists l. split_and!; [by right|done|done].
  - destruct (decide _) as [K|K]; [|done]. intros [= <-].
    exists line. split_and!; [left|done|done].
Qed.

Lemma last_row_None headers key lines :
  last_row headers key lines = None ↔
  ∀ line, line ∈ lines → line_key headers line ≠ Some key.
Proof.
  induction lines as [|line rest IH]; cbn [last_row].
  - split; [|done]. by intros _ l ?%elem_of_nil.
  - destruct (last_row headers key rest) as [row'|].
    + split; [done|]. intros H. exfalso.
      assert (Some row' = None) as Hn; [|done].
      apply IH. intros l Hl. apply H. by right.
    + destruct (decide _) as [K|K].
      * split; [done|]. intros H. exfalso. by apply (H line); [left|].
      * split; [|done]. intros _ l [->|Hl]%elem_of_cons; [done|].
        by apply IH.
Qed.

Lemma final_index_valid content :
  header_valid (header_fields content) →
  file_size_ok content →
  final_index content =
  Some (index_of (header_fields content) (data_lines content)).
Proof.
  intros Hv Hs. unfold final_index. by rewrite (process_valid _ Hv Hs).
Qed.

Lemma line_key_well_formed headers line key :
  line_key headers line = Some key →
  well_formed headers line = true ∧
  row_key headers (split_csv_row line) = Some key.
Proof.
  unfold line_key. by destruct (well_formed headers line).
Qed.

(** ** Counting warnings and entries *)

Lemma malformed_from_length headers k lines :
  (length (malformed_from headers k lines) +
   length (filter (λ line, well_formed headers line = true) lines) =
   length lines)%nat.
Proof.
  revert k. induction lines as [|line rest IH]; intros k; [done|].
  cbn [malformed_from]. destruct (well_formed headers line) eqn:W.
  - rewrite filter_cons_True by done. cbn [length]. specialize (IH (S k)).
    lia.
  - rewrite filter_cons_False by (rewrite W; discriminate).
    cbn [length]. specialize (IH (S k)). lia.
Qed.

Lemma foldl_index_insert_size headers lines m :
  (size (foldl (index_insert headers) m lines) ≤
   size m + length (filter (λ line, well_formed headers line = true) lines))%nat.
Proof.
  revert m. induction lines as [|line rest IH]; intros m; [cbn; lia|].
  cbn [foldl]. etrans; [apply IH|].
  unfold index_insert at 1. destruct (well_formed headers line) eqn:W.
  - rewrite filter_cons_True by done. cbn [length].
    destruct (row_key headers (split_csv_row line)) as [key|]; [|lia].
    rewrite map_size_insert. destruct (m !! key); unfold id; lia.
  - rewrite filter_cons_False by (rewrite W; discriminate). lia.
Qed.



(** ** Lines that are always malformed *)

Lemma header_valid_length headers :
  header_valid headers → (3 ≤ length headers)%nat.
Proof.
  intros (Hp & Ha & Hr).
  apply list_elem_of_lookup_1 in Hp as [i Hi].
  apply list_elem_of_lookup_1 in Ha as [j Hj].
  apply list_elem_of_lookup_1 in Hr as [k Hk].
  assert (i ≠ j) by (intros ->; congruence).
  assert (i ≠ k) by (intros ->; congruence).
  assert (j ≠ k) by (intros ->; congruence).
  apply lookup_lt_Some in Hi, Hj, Hk. lia.
Qed.

Lemma malformed_line_warned content before line after :
  header_valid (header_fields content) →
  file_size_ok content →
  data_lines content = before ++ line :: after →
  well_formed (header_fields content) line = false →
  ∃ st, process content = Some (0, st) ∧
        warning (length before + 2) ∈ cerr st ∧
        hashmap st =
          Some (index_of (header_fields content) (before ++ after)).
Proof.
  intros Hv Hs Hd W. eexists. split; [by apply process_valid|].
  cbn [hashmap cerr]. split.
  - apply list_elem_of_fmap. exists (length before + 2)%nat.
    split; [done|]. apply malformed_from_elem.
    exists (length before), line. split_and!; [lia| |done].
    rewrite Hd. by apply list_lookup_middle.
  - f_equal. unfold index_of. rewrite Hd, !foldl_app. cbn [foldl].
    by rewrite index_insert_skipped.
Qed.

(** ** The sentinel *)

Lemma column_npos name headers :
  Z.of_nat (length headers) < 2 ^ 64 →
  (column name headers 0 npos = npos ↔ name ∉ headers) ∧
  (column name headers 0 npos ≠ npos →
   in_header headers (column name headers 0 npos) ∧
   headers !! Z.to_nat (column name headers 0 npos) = Some name).
Proof.
  intros Hh. destruct (decide (name ∈ headers)) as [Hin|Hin].
  - destruct (column_valid _ _ Hin Hh) as [B N]. split; [done|].
    intros _. split; [done|].
    destruct (last_index_present _ _ Hin) as (j & E & [L _] & _).
    unfold column. rewrite E, Z.add_0_l, Nat2Z.id. exact L.
  - pose proof Hin as E. apply last_index_None in E.
    unfold column. rewrite E. done.
Qed.

(** ** The file, one part after another *)

Lemma file_lines_snoc content :
  file_lines (content +:+ endl) = segments LF content.
Proof.
  unfold file_lines, reads, endl. cbn [good open eofbit failbit rdbuf negb andb].
  rewrite segments_app_delim. apply drop_final_empty_snoc.
Qed.

Lemma file_lines_closed content :
  open_ended LF content = false → file_lines content = segments LF content.
Proof.
  intros H. unfold file_lines, reads.
  cbn [good open eofbit failbit rdbuf negb andb].
  by rewrite drop_final_empty_open_ended, H.
Qed.

Lemma file_lines_app a b :
  open_ended LF a = true →
  file_lines (a +:+ b) = file_lines a ++ file_lines b.
Proof.
  intros Ha. destruct (String.eqb_spec a EmptyString) as [->|Hne].
  - reflexivity.
  - destruct (open_ended_inv _ _ Ha Hne) as [s ->].
    fold endl. rewrite file_lines_snoc, string_app_assoc.
    change (endl +:+ b) with (String LF b).
    unfold file_lines, reads.
    cbn [good open eofbit failbit rdbuf negb andb].
    rewrite segments_app_delim. apply drop_final_empty_app.
    by destruct (segments_cons LF b) as (? & ? & ->).
Qed.

Lemma outcome_resolve content :
  outcome content =
  let '(package_idx, arch_idx, release_idx) :=
    resolve (header_fields content) in
  if (package_idx =? npos) || (arch_idx =? npos) || (release_idx =? npos) then
    Some (1, None, [], [missing_msg])
  else
    match index_rows (header_fields content) package_idx arch_idx release_idx
            (data_lines content) 1 ∅ [] with
    | None => None
    | Some (_, h, c) =>
        Some (0, Some (query h query_key [loaded_msg (size h)]).1,
              (query h query_key [loaded_msg (size h)]).2, c)
    end.
Proof.
  unfold outcome. rewrite process_resolve.
  destruct (resolve (header_fields content)) as [[p a] r].
  destruct ((p =? npos) || (a =? npos) || (r =? npos)); [reflexivity|].
  by destruct (index_rows _ _ _ _ _ _ _ _) as [[[n h] c]|].
Qed.

Lemma outcome_lines content content' :
  header_line content = header_line content' →
  data_lines content = data_lines content' →
  outcome content = outcome content'.
Proof.
  intros Hh Hd. rewrite !outcome_resolve. unfold header_fields.
  by rewrite Hh, Hd.
Qed.

(** ** The exit code *)

Lemma process_exit content code st :
  file_size_ok content →
  process content = Some (code, st) →
  (code = 1 ∧ ¬ header_valid (header_fields content)) ∨
  (code = 0 ∧ header_valid (header_fields content)).
Proof.
  intros Hs.
  destruct (decide (header_valid (header_fields content))) as [Hv|Hv].
  - rewrite (process_valid _ Hv Hs). intros [= <- _]. by right.
  - rewrite (process_missing _ Hv). intros [= <- _]. by left.
Qed.

Lemma process_failure content st :
  process content = Some (1, st) →
  cout st = [] ∧ cerr st = [missing_msg] ∧ hashmap st = None.
Proof.
  rewrite process_resolve.
  destruct (resolve (header_fields content)) as [[p a] r].
  destruct ((p =? npos) || (a =? npos) || (r =? npos)).
  - by intros [= <-].
  - by destruct (index_rows _ _ _ _ _ _ _ _) as [[[n h] c]|].
Qed.

(** ** The index of a file continued by another *)

Lemma file_size_ok_app_l a b : file_size_ok (a +:+ b) → file_size_ok a.
Proof. unfold file_size_ok. rewrite string_app_length. lia. Qed.

Lemma header_valid_lines content :
  header_valid (header_fields content) → file_lines content ≠ [].
Proof.
  intros (Hp & _) E. unfold header_fields, header_line in Hp.
  rewrite E, split_csv_row_segments in Hp. by apply elem_of_nil in Hp.
Qed.

Lemma lines_app a b :
  header_valid (header_fields a) →
  open_ended LF a = true →
  header_line (a +:+ b) = header_line a ∧
  data_lines (a +:+ b) = data_lines a ++ file_lines b.
Proof.
  intros Hv Ha. pose proof (header_valid_lines _ Hv) as Hne.
  unfold header_line, data_lines. rewrite (file_lines_app _ _ Ha).
  by destruct (file_lines a).
Qed.

Lemma final_index_app a b :
  header_valid (header_fields a) →
  open_ended LF a = true →
  file_size_ok (a +:+ b) →
  final_index a = Some (index_of (header_fields a) (data_lines a)) ∧
  final_index (a +:+ b) =
    Some (foldl (index_insert (header_fields a))
            (index_of (header_fields a) (data_lines a)) (file_lines b)).
Proof.
  intros Hv Ha Hs. destruct (lines_app a b Hv Ha) as [Hh Hd].
  split; [apply final_index_valid; [done|by eapply file_size_ok_app_l]|].
  assert (header_fields (a +:+ b) = header_fields a) as Hf
    by (unfold header_fields; by rewrite Hh).
  rewrite final_index_valid by (by rewrite ?Hf).
  rewrite Hf, Hd. unfold index_of. by rewrite foldl_app.
Qed.

Lemma foldl_index_insert_again headers lines :
  foldl (index_insert headers) (index_of headers lines) lines =
  index_of headers lines.
Proof.
  apply map_eq. intros key. unfold index_of.
  rewrite !foldl_index_insert_lookup.
  by destruct (last_row headers key lines).
Qed.

(** ** The key of the lookup *)

Lemma line_key_query headers line :
  line_key headers line = Some query_key ↔
  well_formed headers line = true ∧
  triple headers (split_csv_row line) = Some ("openssl", "amd64", "22.04").
Proof.
  unfold line_key. destruct (well_formed headers line); [|by split; [|intros []]].
  rewrite row_key_triple.
  destruct (triple headers (split_csv_row line)) as [[[x y] z]|]; cbn.
  - split.
    + intros [= H]. split; [done|].
      change query_key
        with ("openssl" +:+ "|" +:+ "amd64" +:+ "|" +:+ "22.04") in H.
      apply key_inj_free in H as (-> & -> & ->); done.
    + by intros [_ [= -> -> ->]].
  - by split; [|intros []].
Qed.

(** ** A text after the last piece *)

Lemma segments_app_free delim s t :
  count_delim delim t = 0%nat →
  ∃ init lst, segments delim s = init ++ [lst] ∧
              segments delim (s +:+ t) = init ++ [lst +:+ t].
Proof.
  intros Ht. induction s as [|c s (init & lst & E & E')].
  - exists [], EmptyString. split; [reflexivity|]. by apply segments_whole.
  - rewrite string_app_cons. cbn [segments]. rewrite E, E'.
    destruct (Ascii.eqb c delim).
    + by exists (EmptyString :: init), lst.
    + destruct init as [|i init].
      * by exists [], (String c lst).
      * by exists (String c i :: init), lst.
Qed.

(** ** Rows with keys of their own *)

Lemma keys_unique headers lines x y key :
  NoDup (keys headers lines) →
  x ∈ lines → y ∈ lines →
  line_key headers x = Some key → line_key headers y = Some key →
  x = y.
Proof.
  induction lines as [|l rest IH]; [by intros _ ?%elem_of_nil|].
  rewrite keys_cons. intros Hnd Hx Hy Kx Ky.
  assert (∀ z, z ∈ rest → line_key headers z = Some key →
               key ∈ keys headers rest) as Hin.
  { intros z Hz Kz. apply list_elem_of_omap. by exists z. }
  apply elem_of_cons in Hx as [->|Hx], Hy as [->|Hy]; [done| | |].
  - rewrite Kx in Hnd. apply NoDup_cons in Hnd as [Hnot _].
    destruct Hnot. by eapply Hin.
  - rewrite Ky in Hnd. apply NoDup_cons in Hnd as [Hnot _].
    destruct Hnot. by eapply Hin.
  - apply IH; try done.
    destruct (line_key headers l); [by apply NoDup_cons in Hnd as [_ ?]|done].
Qed.

Lemma last_row_unique headers lines key row :
  NoDup (keys headers lines) →
  last_row headers key lines = Some row ↔
  ∃ line, line ∈ lines ∧ line_key headers line = Some key ∧
          row = split_csv_row line.
Proof.
  intros Hnd. split; [apply last_row_Some|].
  intros (line & Hl & K & ->).
  destruct (last_row headers key lines) as [row'|] eqn:L.
  - apply last_row_Some in L as (line' & Hl' & K' & ->).
    by rewrite (keys_unique _ _ _ _ _ Hnd Hl Hl' K K').
  - exfalso. by eapply last_row_None.
Qed.

Lemma index_of_permutation headers lines lines' :
  lines ≡ₚ lines' →
  NoDup (keys headers lines) →
  index_of headers lines = index_of headers lines'.
Proof.
  intros Hp Hnd.
  assert (NoDup (keys headers lines')) as Hnd'.
  { unfold keys in *. by rewrite <- Hp. }
  apply map_eq. intros key. unfold index_of.
  rewrite !foldl_index_insert_lookup, !lookup_empty.
  destruct (last_row headers key lines) as [row|] eqn:L.
  - apply (last_row_unique _ _ _ _ Hnd) in L as (line & Hl & K & ->).
    rewrite Hp in Hl.
    assert (last_row headers key lines' = Some (split_csv_row line)) as ->;
      [|done].
    apply last_row_unique; [done|]. by exists line.
  - destruct (last_row headers key lines') as [row'|] eqn:L'; [|done].
    apply (last_row_unique _ _ _ _ Hnd') in L' as (line & Hl & K & ->).
    rewrite <- Hp in Hl. exfalso.
    by eapply (proj1 (last_row_None headers key lines) L).
Qed.

(** ** Permuted lines *)

(** The index of a file whose lines split into the permuted fields. *)
Lemma index_permuted_fields content content' σ :
  header_unambiguous (header_fields content) →
  σ ≡ₚ seq 0 (length (header_fields content)) →
  file_size_ok content →
  file_size_ok content' →
  header_fields content' = permute σ (header_fields content) →
  Forall2 (permuted_line σ (header_fields content))
    (data_lines content) (data_lines content') →
  ∃ m, final_index content = Some m ∧
       final_index content' = Some (permute σ <$> m) ∧
       dom (permute σ <$> m) = dom m.
Proof.
  intros Hu Hσ Hs Hs' Hh' Hrows.
  pose proof Hu as ([jp Op] & [ja Oa] & [jr Or]).
  destruct (only_at_permute σ _ Hσ _ _ Op) as (jp' & Sp & Op').
  destruct (only_at_permute σ _ Hσ _ _ Oa) as (ja' & Sa & Oa').
  destruct (only_at_permute σ _ Hσ _ _ Or) as (jr' & Sr & Or').
  pose proof (header_fields_small content Hs) as Hsmall.
  pose proof (header_fields_small content' Hs') as Hsmall'.
  rewrite Hh' in Hsmall'.
  destruct (resolve_only_at _ _ _ _ Op Oa Or Hsmall) as (R & _).
  destruct (resolve_only_at _ _ _ _ Op' Oa' Or' Hsmall') as (R' & _).
  assert (header_valid (header_fields content)) as Hv
    by by apply header_unambiguous_valid.
  assert (header_valid (header_fields content')) as Hv'.
  { rewrite Hh'. apply header_unambiguous_valid. split_and!; eauto. }
  exists (index_of (header_fields content) (data_lines content)).
  unfold final_index.
  rewrite (process_valid content Hv Hs), (process_valid content' Hv' Hs').
  split; [reflexivity|]. split; [|apply dom_fmap_L].
  cbn. f_equal. rewrite Hh'. unfold index_of.
  assert (∀ m,
            foldl (index_insert (permute σ (header_fields content)))
              (permute σ <$> m) (data_lines content') =
            permute σ <$>
              foldl (index_insert (header_fields content)) m
                (data_lines content)) as Hfold.
  { induction Hrows as [|line line' lines lines' Hline _ IH]; intros m.
    - reflexivity.
    - cbn [foldl]. rewrite <- IH. f_equal.
      by eapply index_insert_permuted. }
  specialize (Hfold ∅). by rewrite fmap_empty in Hfold.
Qed.

Lemma split_csv_row_free line : Forall (free_of ",") (split_csv_row line).
Proof.
  apply Forall_forall. intros x Hx. rewrite split_csv_row_segments in Hx.
  apply drop_final_empty_elem in Hx. by eapply segments_free.
Qed.

Lemma split_csv_row_join_inv fields :
  fields ≠ [] →
  Forall (free_of ",") fields →
  last fields ≠ Some EmptyString →
  split_csv_row (join_fields fields) = fields.
Proof.
  intros Hne Hfree Hlast. unfold join_fields.
  rewrite split_csv_row_segments, segments_concat by done.
  by apply drop_final_empty_id.
Qed.

Lemma permute_free σ row :
  Forall (free_of ",") row → Forall (free_of ",") (permute σ row).
Proof.
  intros Hfree. unfold permute. apply Forall_fmap, Forall_forall.
  intros i _. cbn. rewrite list_lookup_total_alt.
  destruct (row !! i) as [x|] eqn:E; [|reflexivity].
  cbn. eapply Forall_forall; [exact Hfree|].
  by eapply list_elem_of_lookup_2.
Qed.

(** The permuted fields of a row, joined by commas, split into the
    permuted fields when the last of them is not empty. *)
Lemma permuted_text_fields σ (headers row : list string) :
  σ ≡ₚ seq 0 (length headers) →
  (0 < length headers)%nat →
  keeps_last σ row →
  Forall (free_of ",") row →
  split_csv_row (join_fields (permute σ row)) = permute σ row.
Proof.
  intros Hσ Hn Hlast Hfree. apply split_csv_row_join_inv.
  - intros E. apply (f_equal length) in E.
    rewrite permute_length, (perm_length _ _ Hσ) in E. cbn in E. lia.
  - by apply permute_free.
  - exact Hlast.
Qed.

(** ** The scenarios of the specification, run *)

Example split_examples :
  split_csv_row "a,,b" = ["a"; EmptyString; "b"] ∧
  split_csv_row ",a" = [EmptyString; "a"] ∧
  split_csv_row "," = [EmptyString] ∧
  split_csv_row "a" = ["a"].
Proof. vm_compute. split_and!; reflexivity. Qed.

(** Scenario A: one row, found by the lookup; the count is 1. *)
Example scenario_found :
  main ["./csv_hashmap"; "pkgs.csv"]
    (λ _, Some ("package,architecture,release" +:+ endl +:+
                "openssl,amd64,22.04" +:+ endl)) =
  Some (0, {| file := Some {| rdbuf := EmptyString; eofbit := true;
                              failbit := true |};
              hashmap := Some {[ "openssl|amd64|22.04" :=
                                   ["openssl"; "amd64"; "22.04"] ]};
              cout := ["✅ Loaded 1 unique entries." +:+ endl;
                       "🔍 Found: "; "openssl | "; "amd64 | "; "22.04 | ";
                       endl];
              cerr := [] |}).
Proof. vm_compute. reflexivity. Qed.

(** Scenario C: a row with fewer fields than the header is skipped with a
    warning that gives its line number. *)
Example scenario_short_row :
  (process short_row ≫= λ '(code, st), Some (code, cout st, cerr st)) =
  Some (0,
        ["✅ Loaded 2 unique entries." +:+ endl;
         "🔍 Found: "; "openssl | "; "amd64 | "; "22.04 | "; endl],
        ["Warning: Skipping malformed line 3" +:+ endl]).
Proof. vm_compute. reflexivity. Qed.

(** Scenario D: lines 3 and 7 build the same key; line 7 is the one kept. *)
Example scenario_lines_3_and_7 :
  final_index
    ("package,architecture,release,version" +:+ endl +:+
     "bar,amd64,20.04,1" +:+ endl +:+
     "foo,amd64,20.04,2" +:+ endl +:+
     "baz,amd64,20.04,3" +:+ endl +:+
     "qux,amd64,20.04,4" +:+ endl +:+
     "quux,amd64,20.04,5" +:+ endl +:+
     "foo,amd64,20.04,6") ≫= (.!! "foo|amd64|20.04") =
  Some ["foo"; "amd64"; "20.04"; "6"].
Proof. vm_compute. reflexivity. Qed.

(** No file, and a wrong number of arguments. *)
Example scenario_no_file :
  main ["./csv_hashmap"; "pkgs.csv"] (λ _, None) =
  Some (1, {| file := Some unopened; hashmap := None; cout := [];
              cerr := ["Error opening file: pkgs.csv" +:+ endl] |}) ∧
  main ["./csv_hashmap"] (λ _, None) =
  Some (1, {| file := None; hashmap := None; cout := [];
              cerr := ["Usage: ./csv_hashmap <csv_file>" +:+ endl] |}).
Proof. vm_compute. split; reflexivity. Qed.

(** * The claims *)

(** ** C1: the row splitter *)

(** C1, as the claim words it, fails: a line that ends with [','] yields no
    final empty field, and the empty line yields no field at all, so the
    number of fields is not the number of pieces. *)
Lemma split_csv_row_final_empty_dropped :
  split_csv_row "a,b," = ["a"; "b"] ∧
  segments "," "a,b," = ["a"; "b"; EmptyString] ∧
  length (split_csv_row "a,b,") ≠ S (count_delim "," "a,b,") ∧
  split_csv_row EmptyString = [] ∧
  segments "," EmptyString = [EmptyString].
Proof. vm_compute. split_and!; try reflexivity. lia. Qed.

(** C1, amended.  For every line, the row splitter returns, in order, the
    pieces obtained by splitting at every [','], empty pieces at the start
    of the line and between two delimiters included, except that the last
    piece is left out when it is empty, which is when the line is empty or
    ends with [','].  The number of fields is the number of delimiters in
    that case, and one more otherwise. *)
Theorem split_csv_row_pieces line :
  split_csv_row line =
    (if open_ended "," line then removelast (segments "," line)
     else segments "," line) ∧
  length (split_csv_row line) =
    (if open_ended "," line then count_delim "," line
     else S (count_delim "," line)).
Proof.
  rewrite split_csv_row_segments, drop_final_empty_open_ended.
  split; [reflexivity|].
  destruct (open_ended "," line).
  - by rewrite removelast_length, segments_length.
  - apply segments_length.
Qed.

(** ** C2: the last write wins *)

(** C2, as the claim words it, fails: the key does not escape ['|'], so a
    row with another triple can build the key of the two rows.  Lines 2
    and 3 of [colliding_keys] have the same triple, line 4 has another one
    and the same key, and the index maps the key to line 4, not to the
    later of the two rows. *)
Lemma later_row_superseded_by_collision :
  let headers := header_fields colliding_keys in
  header_valid headers ∧
  data_lines colliding_keys = ["a|b,c,d,1"; "a|b,c,d,2"; "a,b|c,d,3"] ∧
  well_formed headers "a|b,c,d,1" = true ∧
  well_formed headers "a|b,c,d,2" = true ∧
  triple headers (split_csv_row "a|b,c,d,1") = Some ("a|b", "c", "d") ∧
  triple headers (split_csv_row "a|b,c,d,2") = Some ("a|b", "c", "d") ∧
  triple headers (split_csv_row "a,b|c,d,3") = Some ("a", "b|c", "d") ∧
  row_key headers (split_csv_row "a|b,c,d,2") = Some "a|b|c|d" ∧
  split_csv_row "a|b,c,d,2" = ["a|b"; "c"; "d"; "2"] ∧
  final_index colliding_keys ≫= (.!! "a|b|c|d") =
    Some ["a"; "b|c"; "d"; "3"] ∧
  final_index colliding_keys ≫= (.!! "a|b|c|d") ≠
    Some (split_csv_row "a|b,c,d,2").
Proof.
  intros headers.
  assert (final_index colliding_keys ≫= (.!! "a|b|c|d") =
          Some ["a"; "b|c"; "d"; "3"]) as E by (vm_compute; reflexivity).
  assert (split_csv_row "a|b,c,d,2" = ["a|b"; "c"; "d"; "2"]) as E2
    by (vm_compute; reflexivity).
  split; [apply (@bool_decide_unpack _ (header_valid_dec _)); vm_compute;
          exact I|].
  do 7 (split; [vm_compute; reflexivity|]).
  split; [exact E2|]. split; [exact E|].
  rewrite E, E2. discriminate.
Qed.

(** C2, amended.  Take a file with a valid header and two well-formed data
    rows whose package, architecture and release fields are the same, such
    that no well-formed row after the later one builds their composite
    key.  The program returns 0, both rows build the key, the index maps
    the key to the fields of the later row, and [cerr] holds no warning for
    either of the two lines. *)
Theorem last_write_wins content before earlier between later after key :
  header_valid (header_fields content) →
  file_size_ok content →
  data_lines content = before ++ earlier :: between ++ later :: after →
  well_formed (header_fields content) earlier = true →
  well_formed (header_fields content) later = true →
  triple (header_fields content) (split_csv_row earlier) =
    triple (header_fields content) (split_csv_row later) →
  row_key (header_fields content) (split_csv_row later) = Some key →
  (∀ line, line ∈ after → line_key (header_fields content) line ≠ Some key) →
  ∃ st, process content = Some (0, st) ∧
        row_key (header_fields content) (split_csv_row earlier) = Some key ∧
        (hashmap st ≫= (.!! key)) = Some (split_csv_row later) ∧
        (warning (length before + 2) ∉ cerr st) ∧
        (warning (length before + length between + 3) ∉ cerr st).
Proof.
  intros Hv Hs Hd We Wl Ht Hk Hafter.
  eexists. split; [by apply process_valid|]. cbn [hashmap cerr].
  split_and!.
  - rewrite row_key_triple, Ht, <- row_key_triple. done.
  - change (index_of (header_fields content) (data_lines content) !! key =
            Some (split_csv_row later)).
    unfold index_of. rewrite Hd.
    rewrite foldl_app. cbn [foldl]. rewrite foldl_app. cbn [foldl].
    rewrite foldl_index_insert_lookup_ne by done.
    erewrite index_insert_stored; [apply lookup_insert_eq|].
    unfold line_key. by rewrite Wl.
  - rewrite list_elem_of_fmap. intros (k & Hw%warning_inj & Hin). subst k.
    apply malformed_from_elem in Hin as (i & line & Hi & Hl & Hw).
    assert (i = length before) as -> by lia.
    rewrite Hd, list_lookup_middle in Hl by done. congruence.
  - rewrite list_elem_of_fmap. intros (k & Hw%warning_inj & Hin). subst k.
    apply malformed_from_elem in Hin as (i & line & Hi & Hl & Hw).
    assert (i = length (before ++ earlier :: between)) as ->
      by (rewrite length_app; simpl; lia).
    rewrite Hd in Hl.
    change (earlier :: between ++ later :: after)
      with ((earlier :: between) ++ later :: after) in Hl.
    rewrite (assoc_L (++)), list_lookup_middle in Hl by done. congruence.
Qed.

Lemma last_write_wins_witness :
  let headers := header_fields three_writes in
  header_valid headers ∧
  file_size_ok three_writes ∧
  data_lines three_writes =
    ["zlib,amd64,20.04,0"] ++ "foo,amd64,20.04,1" ::
    ["bar,arm64,22.04,2"] ++ "foo,amd64,20.04,3" ::
    ["foo|amd64,20.04,x,4"; "baz,amd64,20.04,5"] ∧
  well_formed headers "foo,amd64,20.04,1" = true ∧
  well_formed headers "foo,amd64,20.04,3" = true ∧
  triple headers (split_csv_row "foo,amd64,20.04,1") =
    triple headers (split_csv_row "foo,amd64,20.04,3") ∧
  row_key headers (split_csv_row "foo,amd64,20.04,3") =
    Some "foo|amd64|20.04" ∧
  (∀ line, line ∈ ["foo|amd64,20.04,x,4"; "baz,amd64,20.04,5"] →
           line_key headers line ≠ Some "foo|amd64|20.04") ∧
  ∃ st, process three_writes = Some (0, st) ∧
        row_key headers (split_csv_row "foo,amd64,20.04,1") =
          Some "foo|amd64|20.04" ∧
        (hashmap st ≫= (.!! "foo|amd64|20.04")) =
          Some (split_csv_row "foo,amd64,20.04,3") ∧
        (warning (1 + 2) ∉ cerr st) ∧ (warning (1 + 1 + 3) ∉ cerr st).
Proof.
  intros headers.
  assert (header_valid headers) as Hv
    by (apply (@bool_decide_unpack _ (header_valid_dec _)); vm_compute;
        exact I).
  assert (file_size_ok three_writes) as Hs by (vm_compute; reflexivity).
  assert (∀ line, line ∈ ["foo|amd64,20.04,x,4"; "baz,amd64,20.04,5"] →
                  line_key headers line ≠ Some "foo|amd64|20.04") as Hafter.
  { intros line Hin.
    repeat (apply elem_of_cons in Hin as [->|Hin];
            [vm_compute; discriminate|]).
    by apply elem_of_nil in Hin. }
  split; [assumption|]. split; [assumption|].
  do 5 (split; [vm_compute; reflexivity|]).
  split; [assumption|].
  apply (last_write_wins three_writes ["zlib,amd64,20.04,0"]
           "foo,amd64,20.04,1" ["bar,arm64,22.04,2"] "foo,amd64,20.04,3"
           ["foo|amd64,20.04,x,4"; "baz,amd64,20.04,5"] "foo|amd64|20.04");
    try assumption; vm_compute; reflexivity.
Defined.

(** ** C3: the reported entry count *)

(** C3.  For a file with a valid header the program returns 0, the first
    thing it writes on [cout] is the count line, which is the loaded mark,
    the count in decimal, the words [unique entries.] and the end of the
    line; the count on it, which is the size of the index, is the number
    of distinct composite keys of the data rows that have as many fields as
    the header. *)
Theorem entry_count content :
  header_valid (header_fields content) →
  file_size_ok content →
  ∃ st, process content = Some (0, st) ∧
        cout st !! 0%nat =
          Some ("✅ Loaded " +:+
                pretty (Z.of_nat
                  (length (remove_dups
                     (keys (header_fields content) (data_lines content))))) +:+
                " unique entries." +:+ endl) ∧
        size <$> hashmap st =
          Some (length (remove_dups
                  (keys (header_fields content) (data_lines content)))).
Proof.
  intros Hv Hs. eexists. split; [by apply process_valid|].
  cbn [hashmap cout]. rewrite <- index_of_size. split; [|reflexivity].
  unfold query. by destruct (index_of _ _ !! query_key).
Qed.

Lemma entry_count_witness :
  header_valid (header_fields two_writes) ∧
  file_size_ok two_writes ∧
  keys (header_fields two_writes) (data_lines two_writes) =
    ["foo|amd64|20.04"; "bar|arm64|22.04"; "foo|amd64|20.04"] ∧
  "✅ Loaded " +:+
    pretty (Z.of_nat
      (length (remove_dups
         (keys (header_fields two_writes) (data_lines two_writes))))) +:+
    " unique entries." +:+ endl =
  "✅ Loaded 2 unique entries." +:+ endl ∧
  ∃ st, process two_writes = Some (0, st) ∧
        cout st !! 0%nat =
          Some ("✅ Loaded " +:+
                pretty (Z.of_nat
                  (length (remove_dups
                     (keys (header_fields two_writes)
                        (data_lines two_writes))))) +:+
                " unique entries." +:+ endl) ∧
        size <$> hashmap st =
          Some (length (remove_dups
                  (keys (header_fields two_writes) (data_lines two_writes)))).
Proof.
  assert (header_valid (header_fields two_writes)) as Hv
    by (apply (@bool_decide_unpack _ (header_valid_dec _)); vm_compute;
        exact I).
  assert (file_size_ok two_writes) as Hs by (vm_compute; reflexivity).
  split; [assumption|]. split; [assumption|].
  do 2 (split; [vm_compute; reflexivity|]).
  apply (entry_count two_writes); assumption.
Defined.

(** ** C4: malformed rows *)



(** ** C5: what the missing-column error says *)

(** C5, as the claim words it, fails: a header that lacks only [release]
    and a header that lacks only [package] end the program in the same
    way, with the same text on [cerr], so the error does not tell which
    name is absent. *)
Lemma missing_column_not_identified :
  missing (header_fields "package,architecture") = ["release"] ∧
  missing (header_fields "architecture,release") = ["package"] ∧
  process "package,architecture" = process "architecture,release".
Proof. vm_compute. split_and!; reflexivity. Qed.

(** C5, amended.  Whenever one or more of the required names are absent
    from the header row under case-sensitive exact match, the program
    fails with exit code 1 and writes one fixed message on [cerr], which
    lists the three required names whichever of them is absent. *)
Theorem missing_column_message content :
  missing (header_fields content) ≠ [] →
  ∃ st, process content = Some (1, st) ∧
        cout st = [] ∧
        cerr st =
          ["Missing required columns (package, architecture, release)" +:+
           endl].
Proof.
  intros Hm. eexists.
  split; [apply process_missing; by rewrite <- missing_nil|].
  split; reflexivity.
Qed.

Lemma missing_column_message_witness :
  missing (header_fields "package,Architecture,release") ≠ [] ∧
  ∃ st, process "package,Architecture,release" = Some (1, st) ∧
        cout st = [] ∧
        cerr st =
          ["Missing required columns (package, architecture, release)" +:+
           endl].
Proof.
  assert (missing (header_fields "package,Architecture,release") ≠ [])
    as Hm by (vm_compute; discriminate).
  split; [assumption|].
  apply (missing_column_message "package,Architecture,release"). assumption.
Defined.

(** ** C6: permuting the columns *)

(** C6, as the claim words it, fails: when the header names [package] in
    two columns, exchanging these two columns in the header and in the row
    changes the key of the row, so the permuted file gives an index with
    another key. *)
Lemma permuted_duplicate_header_differs :
  let σ := [1; 0; 2; 3]%nat in
  let original :=
    "package,package,architecture,release" +:+ endl +:+
    "libssl,openssl,amd64,22.04" +:+ endl in
  let permuted :=
    "package,package,architecture,release" +:+ endl +:+
    "openssl,libssl,amd64,22.04" +:+ endl in
  header_valid (header_fields original) ∧
  σ ≡ₚ seq 0 (length (header_fields original)) ∧
  header_fields permuted = permute σ (header_fields original) ∧
  Forall2 (permuted_line σ (header_fields original))
    (data_lines original) (data_lines permuted) ∧
  final_index original =
    Some {[ "openssl|amd64|22.04" :=
              ["libssl"; "openssl"; "amd64"; "22.04"] ]} ∧
  final_index permuted =
    Some {[ "libssl|amd64|22.04" :=
              ["openssl"; "libssl"; "amd64"; "22.04"] ]} ∧
  final_index permuted ≠
    (λ m : gmap string (list string), permute σ <$> m) <$>
      final_index original.
Proof.
  intros σ original permuted.
  assert (header_fields original =
          ["package"; "package"; "architecture"; "release"]) as Eh
    by (vm_compute; reflexivity).
  assert (data_lines original = ["libssl,openssl,amd64,22.04"]) as Ed
    by (vm_compute; reflexivity).
  assert (data_lines permuted = ["openssl,libssl,amd64,22.04"]) as Ed'
    by (vm_compute; reflexivity).
  assert (final_index original =
          Some {[ "openssl|amd64|22.04" :=
                    ["libssl"; "openssl"; "amd64"; "22.04"] ]}) as Ei
    by (vm_compute; reflexivity).
  assert (final_index permuted =
          Some {[ "libssl|amd64|22.04" :=
                    ["openssl"; "libssl"; "amd64"; "22.04"] ]}) as Ei'
    by (vm_compute; reflexivity).
  split_and!.
  - rewrite Eh. split_and!; repeat constructor.
  - rewrite Eh. apply perm_swap.
  - vm_compute. reflexivity.
  - rewrite Ed, Ed'. constructor; [|constructor].
    vm_compute. reflexivity.
  - exact Ei.
  - exact Ei'.
  - rewrite Ei, Ei'. intros H.
    apply (f_equal (λ o, o ≫= (.!! "libssl|amd64|22.04"))) in H.
    vm_compute in H. discriminate.
Qed.

(** C6, amended.  Take a file whose header names each of [package],
    [architecture] and [release] exactly once, and a permutation of the
    column positions that puts no empty field last, neither in the header
    nor in a well-formed data row.  The file whose header line is the
    permuted header fields joined by commas, and whose data rows are, line
    by line, the permuted fields joined by commas (a malformed row keeping
    its number of fields), gives the same index up to the permutation: the
    same composite keys, each mapped to the permuted stored row. *)
Theorem header_order_independence content content' σ :
  header_unambiguous (header_fields content) →
  σ ≡ₚ seq 0 (length (header_fields content)) →
  file_size_ok content →
  file_size_ok content' →
  keeps_last σ (header_fields content) →
  Forall (λ line, well_formed (header_fields content) line = true →
                  keeps_last σ (split_csv_row line)) (data_lines content) →
  header_line content' = join_fields (permute σ (header_fields content)) →
  Forall2 (permuted_text σ (header_fields content))
    (data_lines content) (data_lines content') →
  ∃ m, final_index content = Some m ∧
       final_index content' = Some (permute σ <$> m) ∧
       dom (permute σ <$> m) = dom m.
Proof.
  intros Hu Hσ Hs Hs' Hlast Hlasts Hh' Hrows.
  pose proof (header_valid_length _ (header_unambiguous_valid _ Hu)) as Hn.
  apply index_permuted_fields; try done.
  - unfold header_fields at 1. rewrite Hh'.
    apply (permuted_text_fields σ (header_fields content));
      [done|lia|done|apply split_csv_row_free].
  - induction Hrows as [|line line' lines lines' Hline _ IH];
      [constructor|].
    apply Forall_cons in Hlasts as [Hl Hlasts].
    constructor; [|by apply IH].
    unfold permuted_text in Hline. unfold permuted_line.
    destruct (well_formed (header_fields content) line) eqn:W; [|done].
    rewrite Hline.
    apply (permuted_text_fields σ (header_fields content));
      [done| |by apply Hl|].
    + unfold well_formed in W. apply Nat.eqb_eq in W. lia.
    + apply split_csv_row_free.
Qed.

Lemma header_order_independence_witness :
  let content :=
    "package,architecture,release" +:+ endl +:+
    "openssl,,22.04" +:+ endl +:+
    "curl,arm64" +:+ endl in
  let content' :=
    "architecture,package,release" +:+ endl +:+
    ",openssl,22.04" +:+ endl +:+
    "arm64,curl" +:+ endl in
  header_unambiguous (header_fields content) ∧
  arch_first ≡ₚ seq 0 (length (header_fields content)) ∧
  file_size_ok content ∧
  file_size_ok content' ∧
  keeps_last arch_first (header_fields content) ∧
  Forall (λ line, well_formed (header_fields content) line = true →
                  keeps_last arch_first (split_csv_row line))
    (data_lines content) ∧
  header_line content' =
    join_fields (permute arch_first (header_fields content)) ∧
  Forall2 (permuted_text arch_first (header_fields content))
    (data_lines content) (data_lines content') ∧
  ∃ m, final_index content = Some m ∧
       final_index content' = Some (permute arch_first <$> m) ∧
       dom (permute arch_first <$> m) = dom m.
Proof.
  intros content content'.
  assert (header_fields content = ["package"; "architecture"; "release"])
    as Eh by (vm_compute; reflexivity).
  assert (data_lines content = ["openssl,,22.04"; "curl,arm64"]) as Ed
    by (vm_compute; reflexivity).
  assert (data_lines content' = [",openssl,22.04"; "arm64,curl"]) as Ed'
    by (vm_compute; reflexivity).
  assert (header_unambiguous (header_fields content)) as Hu.
  { rewrite Eh. split_and!;
      [exists 0%nat|exists 1%nat|exists 2%nat];
      (split; [reflexivity|]);
      intros [|[|[|k]]] Hk; try reflexivity; discriminate Hk. }
  assert (arch_first ≡ₚ seq 0 (length (header_fields content))) as Hσ
    by (rewrite Eh; apply perm_swap).
  assert (file_size_ok content) as Hs by (vm_compute; reflexivity).
  assert (file_size_ok content') as Hs' by (vm_compute; reflexivity).
  assert (keeps_last arch_first (header_fields content)) as Hlast
    by (vm_compute; discriminate).
  assert (Forall (λ line, well_formed (header_fields content) line = true →
                          keeps_last arch_first (split_csv_row line))
            (data_lines content)) as Hlasts.
  { rewrite Ed.
    constructor; [intros _; vm_compute; discriminate|].
    constructor; [intros W; vm_compute in W; discriminate|]. constructor. }
  assert (header_line content' =
          join_fields (permute arch_first (header_fields content))) as Hh'
    by (vm_compute; reflexivity).
  assert (Forall2 (permuted_text arch_first (header_fields content))
            (data_lines content) (data_lines content')) as Hrows.
  { rewrite Ed, Ed'.
    constructor; [vm_compute; reflexivity|].
    constructor; [vm_compute; reflexivity|]. constructor. }
  do 8 (split; [assumption|]).
  apply (header_order_independence content content' arch_first);
    assumption.
Defined.

(** ** C7: a missing column stops the program before any data row *)

(** C7.  When the header lacks at least one of the three names, the
    program returns 1; the file stream is where the header read left it,
    with every data line still to be read; no map was built; and [cerr]
    holds the missing-column message only, which is no malformed-row
    warning. *)
Theorem missing_column_exit prog path fs content :
  fs path = Some content →
  ¬ header_valid (header_fields content) →
  main [prog; path] fs =
    Some (1, {| file := Some (after_header content); hashmap := None;
                cout := []; cerr := [missing_msg] |}) ∧
  reads LF (after_header content) = data_lines content ∧
  ∀ k, warning k ≠ missing_msg.
Proof.
  intros Hfs Hm. split_and!.
  - cbn [main]. rewrite Hfs. by apply process_missing.
  - apply header_getline.
  - apply warning_not_missing.
Qed.

Lemma missing_column_exit_witness :
  let fs := λ path, if String.eqb path "pkgs.csv" then Some no_architecture
                    else None in
  fs "pkgs.csv" = Some no_architecture ∧
  ¬ header_valid (header_fields no_architecture) ∧
  data_lines no_architecture = ["openssl,22.04"; "curl"] ∧
  main ["./csv_hashmap"; "pkgs.csv"] fs =
    Some (1, {| file := Some (after_header no_architecture);
                hashmap := None; cout := []; cerr := [missing_msg] |}) ∧
  reads LF (after_header no_architecture) = data_lines no_architecture ∧
  ∀ k, warning k ≠ missing_msg.
Proof.
  intros fs.
  assert (fs "pkgs.csv" = Some no_architecture) as Hfs by reflexivity.
  assert (¬ header_valid (header_fields no_architecture)) as Hm
    by (apply (@bool_decide_unpack _ (not_dec (header_valid_dec _)));
        vm_compute; exact I).
  split_and!; try assumption; try (vm_compute; reflexivity).
  all: apply (missing_column_exit "./csv_hashmap" "pkgs.csv" fs
                no_architecture); assumption.
Defined.

(** ** C8: the lookup and its report *)

(** C8, as the claim words it, fails: the found line carries a separator
    after the last field too, so it is no prefix followed by the fields
    joined by [" | "] and the end of the line. *)
Lemma found_line_trailing_separator :
  let hashmap : gmap string (list string) :=
    {[ query_key := ["openssl"; "amd64"; "22.04"] ]} in
  text (query hashmap query_key []).2 =
    "🔍 Found: openssl | amd64 | 22.04 | " +:+ endl ∧
  ¬ ∃ pre, text (query hashmap query_key []).2 =
           pre +:+ String.concat " | " ["openssl"; "amd64"; "22.04"] +:+ endl.
Proof.
  intros hashmap.
  assert (text (query hashmap query_key []).2 =
          "🔍 Found: openssl | amd64 | 22.04 | " +:+ endl) as E
    by (vm_compute; reflexivity).
  split; [exact E|]. rewrite E. clear E. intros [pre H].
  pose proof (has_suffix_app pre
                (String.concat " | " ["openssl"; "amd64"; "22.04"] +:+ endl))
    as Hs.
  rewrite <- H in Hs. vm_compute in Hs. discriminate.
Qed.

(** C8, amended.  For every index and queried key, the lookup leaves the
    index as it is.  If the key is present, what is written is a found
    line: the found mark, then every field of the stored row followed by
    [" | "], then the end of the line; for a row with at least one field
    that is the fields separated by [" | "] with one more [" | "] after the
    last field.  If the key is absent, what is written is the not-found
    line with the queried key. *)
Theorem query_report (hashmap : gmap string (list string)) key cout0 :
  (query hashmap key cout0).1 = hashmap ∧
  match hashmap !! key with
  | Some row =>
      ∃ chunks,
        (query hashmap key cout0).2 = cout0 ++ chunks ∧
        text chunks =
          "🔍 Found: " +:+ text ((λ col, col +:+ " | ") <$> row) +:+ endl ∧
        (row ≠ [] →
         text chunks =
           "🔍 Found: " +:+ String.concat " | " row +:+ " | " +:+ endl)
  | None =>
      (query hashmap key cout0).2 =
        cout0 ++ ["❌ Not found: " +:+ key +:+ endl]
  end.
Proof.
  unfold query. destruct (hashmap !! key) as [row|]; [|done].
  split; [reflexivity|]. eexists. split; [reflexivity|].
  assert (text (["🔍 Found: "] ++ ((λ col, col +:+ " | ") <$> row) ++ [endl]) =
          "🔍 Found: " +:+ text ((λ col, col +:+ " | ") <$> row) +:+ endl)
    as E.
  { rewrite !text_app. cbn [text foldr]. by rewrite !string_app_nil_r. }
  split; [exact E|].
  intros Hrow. by rewrite E, text_fields_separated, string_app_assoc.
Qed.

(** ** C9: a required name that occurs more than once *)

(** C9.  For a file with a valid header, each of the three positions that
    the resolver computes is the position of the last occurrence of its
    name in the header row; the loop body builds the key of every
    well-formed row from the fields at these three positions; and the
    index that the program ends with is the one built with these keys. *)
Theorem last_occurrence_resolved content :
  header_valid (header_fields content) →
  file_size_ok content →
  let headers := header_fields content in
  ∃ jp ja jr : nat,
    last_at "package" headers jp ∧
    last_at "architecture" headers ja ∧
    last_at "release" headers jr ∧
    resolve headers = (Z.of_nat jp, Z.of_nat ja, Z.of_nat jr) ∧
    (∀ line n h c,
       well_formed headers line = true →
       index_body headers (Z.of_nat jp) (Z.of_nat ja) (Z.of_nat jr)
         line n h c =
       Some (wrap (n + 1),
             <[key_at (split_csv_row line) jp ja jr := split_csv_row line]> h,
             c)) ∧
    ∃ st, process content = Some (0, st) ∧
          hashmap st =
            Some (foldl
                    (λ m line,
                       if well_formed headers line
                       then <[key_at (split_csv_row line) jp ja jr :=
                                split_csv_row line]> m
                       else m)
                    ∅ (data_lines content)).
Proof.
  intros Hv Hs headers.
  pose proof (header_fields_small content Hs) as Hh.
  destruct (resolve_positions headers Hv Hh)
    as (jp & ja & jr & [Lp Bp] & [La Ba] & [Lr Br] & R).
  exists jp, ja, jr. split_and!; try assumption.
  - intros line n h c W. unfold index_body.
    pose proof W as W'. unfold well_formed in W'. rewrite W'.
    cbn [negb]. apply Nat.eqb_eq in W'.
    by rewrite make_key_nat by (rewrite W'; assumption).
  - eexists. split; [by apply process_valid|]. cbn [hashmap]. f_equal.
    unfold index_of. apply foldl_pointwise. intros m line.
    by apply index_insert_at.
Qed.

Lemma last_occurrence_resolved_witness :
  let headers := header_fields two_package_columns in
  header_valid headers ∧
  file_size_ok two_package_columns ∧
  headers = ["package"; "architecture"; "package"; "release"] ∧
  resolve headers = (2, 1, 3) ∧
  ∃ jp ja jr : nat,
    last_at "package" headers jp ∧
    last_at "architecture" headers ja ∧
    last_at "release" headers jr ∧
    resolve headers = (Z.of_nat jp, Z.of_nat ja, Z.of_nat jr) ∧
    (∀ line n h c,
       well_formed headers line = true →
       index_body headers (Z.of_nat jp) (Z.of_nat ja) (Z.of_nat jr)
         line n h c =
       Some (wrap (n + 1),
             <[key_at (split_csv_row line) jp ja jr := split_csv_row line]> h,
             c)) ∧
    ∃ st, process two_package_columns = Some (0, st) ∧
          hashmap st =
            Some (foldl
                    (λ m line,
                       if well_formed headers line
                       then <[key_at (split_csv_row line) jp ja jr :=
                                split_csv_row line]> m
                       else m)
                    ∅ (data_lines two_package_columns)).
Proof.
  intros headers.
  assert (header_valid headers) as Hv
    by (apply (@bool_decide_unpack _ (header_valid_dec _)); vm_compute;
        exact I).
  assert (file_size_ok two_package_columns) as Hs
    by (vm_compute; reflexivity).
  split; [assumption|]. split; [assumption|].
  split; [vm_compute; reflexivity|]. split; [vm_compute; reflexivity|].
  apply (last_occurrence_resolved two_package_columns); assumption.
Defined.

Example two_package_columns_index :
  final_index two_package_columns =
  Some {[ "openssl|amd64|22.04" :=
            ["libssl"; "amd64"; "openssl"; "22.04"] ]}.
Proof. vm_compute. reflexivity. Qed.

(** ** C10: an empty file or an empty first line *)

(** C10.  When the file is empty or its first line is empty, the header
    has no field, and the program writes the missing-column message and
    returns 1 without having built a map. *)
Theorem empty_header_exit prog path fs content :
  fs path = Some content →
  content = EmptyString ∨ (∃ rest, content = String LF rest) →
  header_fields content = [] ∧
  main [prog; path] fs =
    Some (1, {| file := Some (after_header content); hashmap := None;
                cout := []; cerr := [missing_msg] |}).
Proof.
  intros Hfs Hempty.
  assert (header_fields content = []) as Hh.
  { unfold header_fields. by rewrite (header_line_empty _ Hempty). }
  split; [exact Hh|].
  cbn [main]. rewrite Hfs. apply process_missing.
  rewrite Hh. intros (Hp & _). by apply elem_of_nil in Hp.
Qed.

Lemma empty_header_exit_witness :
  let content := String LF "package,architecture,release" in
  let fs := λ path : string, Some content in
  (content = EmptyString ∨ (∃ rest, content = String LF rest)) ∧
  header_fields content = [] ∧
  main ["./csv_hashmap"; "pkgs.csv"] fs =
    Some (1, {| file := Some (after_header content); hashmap := None;
                cout := []; cerr := [missing_msg] |}).
Proof.
  intros content fs.
  assert (content = EmptyString ∨ (∃ rest, content = String LF rest))
    as Hempty by (right; eexists; reflexivity).
  split; [assumption|].
  apply (empty_header_exit "./csv_hashmap" "pkgs.csv" fs content);
    [reflexivity|assumption].
Defined.

(** * Further properties of the program *)

(** ** The row splitter *)

(** X1.  No field that the row splitter returns holds a comma. *)
Theorem split_csv_row_fields_free line :
  Forall (free_of ",") (split_csv_row line).
Proof.
  apply Forall_forall. intros x Hx. rewrite split_csv_row_segments in Hx.
  apply drop_final_empty_elem in Hx. by eapply segments_free.
Qed.

(** X2.  The fields of a line joined by commas give the line back, once
    the comma that the line ends with, if it ends with one, is put back. *)
Theorem split_csv_row_join line :
  join_fields (split_csv_row line) +:+
    (if ends_with "," line then "," else EmptyString) = line.
Proof.
  unfold join_fields.
  destruct (ends_with "," line) eqn:E.
  - apply ends_with_spec in E as [s ->].
    by rewrite split_csv_row_snoc, segments_join.
  - rewrite string_app_nil_r.
    unfold ends_with in E. apply andb_false_iff in E as [E|E].
    + by rewrite (split_csv_row_closed _ E), segments_join.
    + apply negb_false_iff, String.eqb_eq in E as ->. reflexivity.
Qed.

(** X3.  Splitting the join of a non-empty list of comma-free fields whose
    last field is not empty gives the fields back. *)
Theorem split_csv_row_of_join fields :
  fields ≠ [] →
  Forall (free_of ",") fields →
  last fields ≠ Some EmptyString →
  split_csv_row (join_fields fields) = fields.
Proof.
  intros Hne Hfree Hlast. unfold join_fields.
  rewrite split_csv_row_segments, segments_concat by done.
  by apply drop_final_empty_id.
Qed.

Lemma split_csv_row_of_join_witness :
  ["openssl"; EmptyString; "22.04"] ≠ [] ∧
  Forall (free_of ",") ["openssl"; EmptyString; "22.04"] ∧
  last ["openssl"; EmptyString; "22.04"] ≠ Some EmptyString ∧
  split_csv_row (join_fields ["openssl"; EmptyString; "22.04"]) =
    ["openssl"; EmptyString; "22.04"].
Proof.
  assert (Forall (free_of ",") ["openssl"; EmptyString; "22.04"]) as Hfree
    by (repeat constructor).
  assert (last ["openssl"; EmptyString; "22.04"] ≠ Some EmptyString) as Hlast
    by (cbn; discriminate).
  split_and!; [discriminate|assumption|assumption|].
  apply (split_csv_row_of_join ["openssl"; EmptyString; "22.04"]);
    [discriminate|assumption|assumption].
Defined.

(** X4.  One comma added at the end of a line that is not empty and does
    not end with a comma changes nothing in its fields. *)
Theorem split_csv_row_final_comma line :
  open_ended "," line = false →
  split_csv_row (line +:+ ",") = split_csv_row line.
Proof.
  intros H. by rewrite split_csv_row_snoc, split_csv_row_closed.
Qed.

Lemma split_csv_row_final_comma_witness :
  open_ended "," "openssl,amd64" = false ∧
  split_csv_row ("openssl,amd64" +:+ ",") = split_csv_row "openssl,amd64".
Proof.
  split; [reflexivity|].
  apply (split_csv_row_final_comma "openssl,amd64"). reflexivity.
Defined.

(** ** The key builder *)

(** X5.  When the package and the architecture fields of two rows hold no
    ['|'], the two rows get the same key only if their three key fields are
    the same. *)
Theorem make_key_injective row row' p a r x y z x' y' z' :
  at_index row p = Some x → at_index row a = Some y →
  at_index row r = Some z →
  at_index row' p = Some x' → at_index row' a = Some y' →
  at_index row' r = Some z' →
  free_of "|" x → free_of "|" y → free_of "|" x' → free_of "|" y' →
  make_key row p a r = make_key row' p a r →
  x = x' ∧ y = y' ∧ z = z'.
Proof.
  intros Hx Hy Hz Hx' Hy' Hz' Fx Fy Fx' Fy'. unfold make_key.
  rewrite Hx, Hy, Hz, Hx', Hy', Hz'. cbn. intros [= H].
  by apply key_inj.
Qed.

Lemma make_key_injective_witness :
  let row := ["openssl"; "amd64"; "22.04"; "3.0|beta"] in
  let row' := ["openssl"; "amd64"; "22.04"; "1.1"] in
  at_index row 0 = Some "openssl" ∧ at_index row 1 = Some "amd64" ∧
  at_index row 2 = Some "22.04" ∧
  at_index row' 0 = Some "openssl" ∧ at_index row' 1 = Some "amd64" ∧
  at_index row' 2 = Some "22.04" ∧
  free_of "|" "openssl" ∧ free_of "|" "amd64" ∧
  make_key row 0 1 2 = make_key row' 0 1 2 ∧
  "openssl" = "openssl" ∧ "amd64" = "amd64" ∧ "22.04" = "22.04".
Proof.
  intros row row'.
  do 9 (split; [reflexivity|]).
  apply (make_key_injective row row' 0 1 2 "openssl" "amd64" "22.04"
           "openssl" "amd64" "22.04"); reflexivity.
Defined.

(** X6.  The key does not tell where a field ends when a field holds
    ['|']: a row with package [x|y] and architecture [z] and a row with
    package [x] and architecture [y|z] are two rows with one key. *)
Theorem make_key_collision x y z w :
  [x +:+ "|" +:+ y; z; w] ≠ [x; y +:+ "|" +:+ z; w] ∧
  make_key [x +:+ "|" +:+ y; z; w] 0 1 2 =
    Some (x +:+ "|" +:+ y +:+ "|" +:+ z +:+ "|" +:+ w) ∧
  make_key [x; y +:+ "|" +:+ z; w] 0 1 2 =
    Some (x +:+ "|" +:+ y +:+ "|" +:+ z +:+ "|" +:+ w).
Proof.
  split_and!.
  - intros [= H _]. apply (f_equal String.length) in H.
    rewrite !string_app_length in H. cbn [String.length] in H. lia.
  - change (Some ((x +:+ "|" +:+ y) +:+ "|" +:+ z +:+ "|" +:+ w) =
            Some (x +:+ "|" +:+ y +:+ "|" +:+ z +:+ "|" +:+ w)).
    by rewrite !string_app_assoc.
  - change (Some (x +:+ "|" +:+ (y +:+ "|" +:+ z) +:+ "|" +:+ w) =
            Some (x +:+ "|" +:+ y +:+ "|" +:+ z +:+ "|" +:+ w)).
    by rewrite !string_app_assoc.
Qed.

(** ** The index loop *)

(** X7.  Every entry of the index that the program builds is the field
    sequence of a data line of the file, has as many fields as the header,
    and is stored under the key built from its own fields. *)
Theorem index_entries_sound content :
  header_valid (header_fields content) →
  file_size_ok content →
  ∃ m, final_index content = Some m ∧
       ∀ key row, m !! key = Some row →
         (∃ line, line ∈ data_lines content ∧ split_csv_row line = row) ∧
         length row = length (header_fields content) ∧
         row_key (header_fields content) row = Some key.
Proof.
  intros Hv Hs. eexists. split; [by apply final_index_valid|].
  intros key row. unfold index_of.
  rewrite foldl_index_insert_lookup, lookup_empty.
  destruct (last_row _ _ _) as [row'|] eqn:L; [|done]. intros [= ->].
  apply last_row_Some in L as (line & Hl & K & ->).
  apply line_key_well_formed in K as [W K].
  split_and!; [by exists line| |done].
  unfold well_formed in W. by apply Nat.eqb_eq in W.
Qed.

Lemma index_entries_sound_witness :
  header_valid (header_fields two_writes) ∧
  file_size_ok two_writes ∧
  ∃ m, final_index two_writes = Some m ∧
       ∀ key row, m !! key = Some row →
         (∃ line, line ∈ data_lines two_writes ∧ split_csv_row line = row) ∧
         length row = length (header_fields two_writes) ∧
         row_key (header_fields two_writes) row = Some key.
Proof.
  assert (header_valid (header_fields two_writes)) as Hv
    by (apply (@bool_decide_unpack _ (header_valid_dec _)); vm_compute;
        exact I).
  assert (file_size_ok two_writes) as Hs by (vm_compute; reflexivity).
  split; [assumption|]. split; [assumption|].
  apply (index_entries_sound two_writes); assumption.
Defined.

(** X8.  A key is absent from the index that the program builds exactly
    when no well-formed data line of the file builds it. *)
Theorem index_absent_key content :
  header_valid (header_fields content) →
  file_size_ok content →
  ∃ m, final_index content = Some m ∧
       ∀ key, m !! key = None ↔
              ∀ line, line ∈ data_lines content →
                      line_key (header_fields content) line ≠ Some key.
Proof.
  intros Hv Hs. eexists. split; [by apply final_index_valid|].
  intros key. unfold index_of.
  rewrite foldl_index_insert_lookup, lookup_empty, <- last_row_None.
  by destruct (last_row _ _ _).
Qed.

Lemma index_absent_key_witness :
  header_valid (header_fields two_writes) ∧
  file_size_ok two_writes ∧
  ∃ m, final_index two_writes = Some m ∧
       ∀ key, m !! key = None ↔
              ∀ line, line ∈ data_lines two_writes →
                      line_key (header_fields two_writes) line ≠ Some key.
Proof.
  assert (header_valid (header_fields two_writes)) as Hv
    by (apply (@bool_decide_unpack _ (header_valid_dec _)); vm_compute;
        exact I).
  assert (file_size_ok two_writes) as Hs by (vm_compute; reflexivity).
  split; [assumption|]. split; [assumption|].
  apply (index_absent_key two_writes); assumption.
Defined.

(** X9.  Every data line is accounted for once: the number of warnings on
    [cerr] and the number of well-formed data lines add up to the number of
    data lines, and the index has no more entries than there are
    well-formed data lines. *)
Theorem lines_accounted content :
  header_valid (header_fields content) →
  file_size_ok content →
  ∃ st m, process content = Some (0, st) ∧ hashmap st = Some m ∧
    (length (cerr st) +
     length (filter (λ line, well_formed (header_fields content) line = true)
               (data_lines content)) =
     length (data_lines content))%nat ∧
    (size m ≤
     length (filter (λ line, well_formed (header_fields content) line = true)
               (data_lines content)))%nat.
Proof.
  intros Hv Hs. eexists _, _. split; [by apply process_valid|].
  cbn [hashmap cerr]. split; [reflexivity|]. split.
  - rewrite length_fmap. apply malformed_from_length.
  - unfold index_of. etrans; [apply foldl_index_insert_size|].
    by rewrite map_size_empty.
Qed.

Lemma lines_accounted_witness :
  header_valid (header_fields short_row) ∧
  file_size_ok short_row ∧
  ∃ st m, process short_row = Some (0, st) ∧ hashmap st = Some m ∧
    (length (cerr st) +
     length (filter (λ line, well_formed (header_fields short_row) line = true)
               (data_lines short_row)) =
     length (data_lines short_row))%nat ∧
    (size m ≤
     length (filter (λ line, well_formed (header_fields short_row) line = true)
               (data_lines short_row)))%nat.
Proof.
  assert (header_valid (header_fields short_row)) as Hv
    by (apply (@bool_decide_unpack _ (header_valid_dec _)); vm_compute;
        exact I).
  assert (file_size_ok short_row) as Hs by (vm_compute; reflexivity).
  split; [assumption|]. split; [assumption|].
  apply (lines_accounted short_row); assumption.
Defined.





(** X12.  A data line that ends with a comma and has the header's number
    of pieces when its empty last piece is counted is one field short for
    the program: it is skipped with a warning and adds nothing to the
    index. *)
Theorem empty_last_field_rejected content before line after :
  header_valid (header_fields content) →
  file_size_ok content →
  data_lines content = before ++ (line +:+ ",") :: after →
  length (segments "," (line +:+ ",")) = length (header_fields content) →
  ∃ st, process content = Some (0, st) ∧
        warning (length before + 2) ∈ cerr st ∧
        hashmap st =
          Some (index_of (header_fields content) (before ++ after)).
Proof.
  intros Hv Hs Hd Hn.
  apply (malformed_line_warned content before (line +:+ ",") after);
    try done.
  unfold well_formed. apply Nat.eqb_neq.
  rewrite split_csv_row_snoc, <- Hn, segments_app_delim, length_app.
  cbn. lia.
Qed.

Lemma empty_last_field_rejected_witness :
  header_valid (header_fields empty_release) ∧
  file_size_ok empty_release ∧
  data_lines empty_release = [] ++ ("openssl,amd64" +:+ ",") :: [] ∧
  length (segments "," ("openssl,amd64" +:+ ",")) =
    length (header_fields empty_release) ∧
  ∃ st, process empty_release = Some (0, st) ∧
        warning (0 + 2) ∈ cerr st ∧
        hashmap st = Some (index_of (header_fields empty_release) ([] ++ [])).
Proof.
  assert (header_valid (header_fields empty_release)) as Hv
    by (apply (@bool_decide_unpack _ (header_valid_dec _)); vm_compute;
        exact I).
  assert (file_size_ok empty_release) as Hs by (vm_compute; reflexivity).
  assert (data_lines empty_release = [] ++ ("openssl,amd64" +:+ ",") :: [])
    as Hd by (vm_compute; reflexivity).
  assert (length (segments "," ("openssl,amd64" +:+ ",")) =
          length (header_fields empty_release)) as Hn
    by (vm_compute; reflexivity).
  split; [assumption|]. split; [assumption|]. split; [assumption|].
  split; [assumption|].
  apply (empty_last_field_rejected empty_release [] "openssl,amd64" []);
    assumption.
Defined.

(** ** Header resolution *)

(** X13.  For a header with fewer than [2 ^ 64] fields, a resolved position
    is the sentinel [npos] exactly when its name is absent from the
    header; any other resolved position is an index into the header, and
    the header holds the name there. *)
Theorem sentinel_sound headers p a r :
  Z.of_nat (length headers) < 2 ^ 64 →
  resolve headers = (p, a, r) →
  ((p = npos ↔ "package" ∉ headers) ∧
   (p ≠ npos → in_header headers p ∧
               headers !! Z.to_nat p = Some "package")) ∧
  ((a = npos ↔ "architecture" ∉ headers) ∧
   (a ≠ npos → in_header headers a ∧
               headers !! Z.to_nat a = Some "architecture")) ∧
  ((r = npos ↔ "release" ∉ headers) ∧
   (r ≠ npos → in_header headers r ∧
               headers !! Z.to_nat r = Some "release")).
Proof.
  intros Hh. rewrite (resolve_last _ Hh). intros [= <- <- <-].
  split_and!; by apply column_npos.
Qed.

Lemma sentinel_sound_witness :
  let headers := ["release"; "version"; "package"] in
  Z.of_nat (length headers) < 2 ^ 64 ∧
  resolve headers = (2, npos, 0) ∧
  ((2 = npos ↔ "package" ∉ headers) ∧
   (2 ≠ npos → in_header headers 2 ∧
               headers !! Z.to_nat 2 = Some "package")) ∧
  ((npos = npos ↔ "architecture" ∉ headers) ∧
   (npos ≠ npos → in_header headers npos ∧
                  headers !! Z.to_nat npos = Some "architecture")) ∧
  ((0 = npos ↔ "release" ∉ headers) ∧
   (0 ≠ npos → in_header headers 0 ∧
               headers !! Z.to_nat 0 = Some "release")).
Proof.
  intros headers.
  assert (Z.of_nat (length headers) < 2 ^ 64) as Hh by (vm_compute; reflexivity).
  assert (resolve headers = (2, npos, 0)) as R by (vm_compute; reflexivity).
  split; [assumption|]. split; [assumption|].
  apply (sentinel_sound headers 2 npos 0); assumption.
Defined.

(** ** The program as a whole *)

(** X14.  When every file that can be opened has a possible size, the
    program always returns, with exit code 0 or 1; it returns 0 exactly
    when it is given one argument, the file of that name opens, and the
    header row names the three required columns. *)
Theorem main_exit_code argv fs :
  (∀ path content, fs path = Some content → file_size_ok content) →
  ∃ code st, main argv fs = Some (code, st) ∧
    (code = 0 ∨ code = 1) ∧
    (code = 0 ↔
     ∃ prog path content,
       argv = [prog; path] ∧ fs path = Some content ∧
       header_valid (header_fields content)).
Proof.
  intros Hfs.
  destruct argv as [|prog [|path [|extra argv]]];
    try (eexists _, _; split; [reflexivity|]; split; [by right|];
         split; [done|]; by intros (? & ? & ? & ? & _)).
  cbn [main]. destruct (fs path) as [content|] eqn:Efs.
  - destruct (process_defined content (Hfs _ _ Efs)) as [[code st] E].
    exists code, st. split; [done|].
    destruct (process_exit _ _ _ (Hfs _ _ Efs) E) as [[-> Hv]|[-> Hv]].
    + split; [by right|]. split; [done|].
      intros (? & ? & ? & [= <- <-] & Efs' & Hv').
      rewrite Efs in Efs'. by injection Efs' as <-.
    + split; [by left|]. split; [|done]. intros _.
      by exists prog, path, content.
  - eexists _, _. split; [reflexivity|]. split; [by right|].
    split; [done|]. intros (? & ? & ? & [= <- <-] & Efs' & _). congruence.
Qed.

Lemma main_exit_code_witness :
  let fs := λ path, if String.eqb path "pkgs.csv" then Some two_writes
                    else None in
  (∀ path content, fs path = Some content → file_size_ok content) ∧
  ∃ code st, main ["./csv_hashmap"; "pkgs.csv"] fs = Some (code, st) ∧
    (code = 0 ∨ code = 1) ∧
    (code = 0 ↔
     ∃ prog path content,
       ["./csv_hashmap"; "pkgs.csv"] = [prog; path] ∧
       fs path = Some content ∧
       header_valid (header_fields content)).
Proof.
  intros fs.
  assert (∀ path content, fs path = Some content → file_size_ok content)
    as Hfs.
  { intros path content. unfold fs.
    destruct (String.eqb path "pkgs.csv"); [|discriminate].
    intros [= <-]. vm_compute. reflexivity. }
  split; [assumption|].
  apply (main_exit_code ["./csv_hashmap"; "pkgs.csv"] fs). assumption.
Defined.

(** X15.  Whenever the program returns 1 it has written nothing on
    [cout], it has built no index, and [cerr] holds one message: the usage
    line, the open error with the path it was given, or the missing-column
    message. *)
Theorem failure_is_silent_on_cout argv fs st :
  main argv fs = Some (1, st) →
  cout st = [] ∧ hashmap st = None ∧
  (cerr st = [usage_msg] ∧ length argv ≠ 2%nat ∨
   (∃ prog path, argv = [prog; path] ∧ fs path = None ∧
                 cerr st = [open_msg path]) ∨
   (∃ prog path content, argv = [prog; path] ∧ fs path = Some content ∧
                         cerr st = [missing_msg])).
Proof.
  destruct argv as [|prog [|path [|extra argv]]];
    try (intros [= <-]; split; [done|]; split; [done|]; by left).
  cbn [main]. destruct (fs path) as [content|] eqn:Efs.
  - intros (Hc & He & Hh)%process_failure. split; [done|]. split; [done|].
    right. right. by exists prog, path, content.
  - intros [= <-]. split; [done|]. split; [done|].
    right. left. by exists prog, path.
Qed.

Lemma failure_is_silent_on_cout_witness :
  let fs := λ path : string, @None string in
  let st := {| file := Some unopened; hashmap := None; cout := [];
               cerr := [open_msg "pkgs.csv"] |} in
  main ["./csv_hashmap"; "pkgs.csv"] fs = Some (1, st) ∧
  cout st = [] ∧ hashmap st = None ∧
  (cerr st = [usage_msg] ∧ length ["./csv_hashmap"; "pkgs.csv"] ≠ 2%nat ∨
   (∃ prog path, ["./csv_hashmap"; "pkgs.csv"] = [prog; path] ∧
                 fs path = None ∧ cerr st = [open_msg path]) ∨
   (∃ prog path content,
      ["./csv_hashmap"; "pkgs.csv"] = [prog; path] ∧
      fs path = Some content ∧ cerr st = [missing_msg])).
Proof.
  intros fs st.
  assert (main ["./csv_hashmap"; "pkgs.csv"] fs = Some (1, st)) as Hm
    by reflexivity.
  split; [assumption|].
  apply (failure_is_silent_on_cout ["./csv_hashmap"; "pkgs.csv"] fs st).
  assumption.
Defined.

(** X16.  A line feed after the last line is optional: a file that does
    not end with a line feed and the same file with one added give the same
    exit code, the same index and the same text on [cout] and [cerr]. *)
Theorem final_newline_optional content :
  ends_with LF content = false →
  outcome (content +:+ endl) = outcome content.
Proof.
  intros E. unfold ends_with in E. apply andb_false_iff in E as [E|E].
  - apply outcome_lines; unfold header_line, data_lines;
      by rewrite file_lines_snoc, (file_lines_closed _ E).
  - apply negb_false_iff, String.eqb_eq in E as ->.
    by apply outcome_lines.
Qed.

Lemma final_newline_optional_witness :
  ends_with LF "package,architecture,release" = false ∧
  outcome ("package,architecture,release" +:+ endl) =
    outcome "package,architecture,release".
Proof.
  split; [reflexivity|].
  apply (final_newline_optional "package,architecture,release").
  reflexivity.
Defined.

(** X17.  The index can be built in parts: for a file with a valid header
    that is empty or ends with a line feed, followed by more text, the
    index is the index of the first file with the lines of that text taken
    in after it, one by one. *)
Theorem index_continued a b :
  header_valid (header_fields a) →
  open_ended LF a = true →
  file_size_ok (a +:+ b) →
  ∃ m, final_index a = Some m ∧
       final_index (a +:+ b) =
         Some (foldl (index_insert (header_fields a)) m (file_lines b)).
Proof.
  intros Hv Ha Hs. eexists. by apply final_index_app.
Qed.

Lemma index_continued_witness :
  header_valid (header_fields header_only) ∧
  open_ended LF header_only = true ∧
  file_size_ok (header_only +:+ more_rows) ∧
  ∃ m, final_index header_only = Some m ∧
       final_index (header_only +:+ more_rows) =
         Some (foldl (index_insert (header_fields header_only)) m
                 (file_lines more_rows)).
Proof.
  assert (header_valid (header_fields header_only)) as Hv
    by (apply (@bool_decide_unpack _ (header_valid_dec _)); vm_compute;
        exact I).
  assert (open_ended LF header_only = true) as Ha by (vm_compute; reflexivity).
  assert (file_size_ok (header_only +:+ more_rows)) as Hs
    by (vm_compute; reflexivity).
  split; [assumption|]. split; [assumption|]. split; [assumption|].
  apply (index_continued header_only more_rows); assumption.
Defined.

(** X18.  Taking the same data rows in a second time changes nothing: a
    file with a valid header that ends with a line feed, followed by its
    own data lines again, gives the index of the file itself. *)
Theorem index_rows_again a b :
  header_valid (header_fields a) →
  open_ended LF a = true →
  file_lines b = data_lines a →
  file_size_ok (a +:+ b) →
  final_index (a +:+ b) = final_index a.
Proof.
  intros Hv Ha Hb Hs. destruct (final_index_app a b Hv Ha Hs) as [-> ->].
  by rewrite Hb, foldl_index_insert_again.
Qed.

Lemma index_rows_again_witness :
  let a := header_only +:+ more_rows in
  header_valid (header_fields a) ∧
  open_ended LF a = true ∧
  file_lines more_rows = data_lines a ∧
  file_size_ok (a +:+ more_rows) ∧
  final_index (a +:+ more_rows) = final_index a.
Proof.
  intros a.
  assert (header_valid (header_fields a)) as Hv
    by (apply (@bool_decide_unpack _ (header_valid_dec _)); vm_compute;
        exact I).
  assert (open_ended LF a = true) as Ha by (vm_compute; reflexivity).
  assert (file_lines more_rows = data_lines a) as Hb
    by (vm_compute; reflexivity).
  assert (file_size_ok (a +:+ more_rows)) as Hs by (vm_compute; reflexivity).
  split; [assumption|]. split; [assumption|]. split; [assumption|].
  split; [assumption|].
  apply (index_rows_again a more_rows); assumption.
Defined.

(** ** The lookup of the program *)

(** X19.  For a file with a valid header, the program reports a found row
    exactly when some well-formed data row has package [openssl],
    architecture [amd64] and release [22.04]; the row it then writes is
    such a row, and otherwise it writes the not-found line with the key
    [openssl|amd64|22.04]. *)
Theorem lookup_of_openssl content :
  header_valid (header_fields content) →
  file_size_ok content →
  ∃ st m, process content = Some (0, st) ∧ hashmap st = Some m ∧
    ((∃ line, line ∈ data_lines content ∧
              well_formed (header_fields content) line = true ∧
              triple (header_fields content) (split_csv_row line) =
                Some ("openssl", "amd64", "22.04")) →
     ∃ line, line ∈ data_lines content ∧
             well_formed (header_fields content) line = true ∧
             triple (header_fields content) (split_csv_row line) =
               Some ("openssl", "amd64", "22.04") ∧
             cout st =
               [loaded_msg (size m); "🔍 Found: "] ++
               ((λ col, col +:+ " | ") <$> split_csv_row line) ++ [endl]) ∧
    ((∀ line, line ∈ data_lines content →
              well_formed (header_fields content) line = true →
              triple (header_fields content) (split_csv_row line) ≠
                Some ("openssl", "amd64", "22.04")) →
     cout st =
       [loaded_msg (size m);
        "❌ Not found: openssl|amd64|22.04" +:+ endl]).
Proof.
  intros Hv Hs. eexists _, _. split; [by apply process_valid|].
  cbn [hashmap cout]. split; [reflexivity|].
  set (h := index_of (header_fields content) (data_lines content)).
  assert (h !! query_key =
          last_row (header_fields content) query_key (data_lines content))
    as Hq.
  { unfold h, index_of. rewrite foldl_index_insert_lookup, lookup_empty.
    by destruct (last_row _ _ _). }
  unfold query. rewrite Hq.
  destruct (last_row _ _ _) as [row|] eqn:L.
  - apply last_row_Some in L as (line & Hl & K & ->).
    apply line_key_query in K as [W T]. split.
    + intros _. exists line. by split_and!.
    + intros Hno. by destruct (Hno line Hl W).
  - assert (∀ line, line ∈ data_lines content →
              line_key (header_fields content) line ≠ Some query_key) as Hno
      by (by apply last_row_None).
    split; [|intros _; reflexivity].
    intros (line & Hl & W & T). destruct (Hno line Hl).
    by apply line_key_query.
Qed.

Lemma lookup_of_openssl_witness :
  let content := header_only +:+ more_rows in
  header_valid (header_fields content) ∧
  file_size_ok content ∧
  ∃ st m, process content = Some (0, st) ∧ hashmap st = Some m ∧
    ((∃ line, line ∈ data_lines content ∧
              well_formed (header_fields content) line = true ∧
              triple (header_fields content) (split_csv_row line) =
                Some ("openssl", "amd64", "22.04")) →
     ∃ line, line ∈ data_lines content ∧
             well_formed (header_fields content) line = true ∧
             triple (header_fields content) (split_csv_row line) =
               Some ("openssl", "amd64", "22.04") ∧
             cout st =
               [loaded_msg (size m); "🔍 Found: "] ++
               ((λ col, col +:+ " | ") <$> split_csv_row line) ++ [endl]) ∧
    ((∀ line, line ∈ data_lines content →
              well_formed (header_fields content) line = true →
              triple (header_fields content) (split_csv_row line) ≠
                Some ("openssl", "amd64", "22.04")) →
     cout st =
       [loaded_msg (size m);
        "❌ Not found: openssl|amd64|22.04" +:+ endl]).
Proof.
  intros content.
  assert (header_valid (header_fields content)) as Hv
    by (apply (@bool_decide_unpack _ (header_valid_dec _)); vm_compute;
        exact I).
  assert (file_size_ok content) as Hs by (vm_compute; reflexivity).
  split; [assumption|]. split; [assumption|].
  apply (lookup_of_openssl content); assumption.
Defined.

(** ** Carriage returns *)

(** X20.  A carriage return before the line feed stays in the last field.
    So when the header line ends with a carriage return and a required
    name is only its last field, the name is not recognised and the
    program stops with the missing-column message. *)
Theorem carriage_return_kept content h init name :
  header_line content = h +:+ String CR EmptyString →
  open_ended "," h = false →
  split_csv_row h = init ++ [name] →
  name ∈ required →
  name ∉ init →
  header_fields content = init ++ [name +:+ String CR EmptyString] ∧
  ∃ st, process content = Some (1, st) ∧ cerr st = [missing_msg].
Proof.
  intros Hh Hopen Hsplit Hreq Hinit.
  assert (header_fields content = init ++ [name +:+ String CR EmptyString])
    as Hf.
  { unfold header_fields. rewrite Hh, split_csv_row_segments.
    destruct (segments_app_free "," h (String CR EmptyString) eq_refl)
      as (i0 & l0 & E & E').
    rewrite (split_csv_row_closed _ Hopen), E in Hsplit.
    apply app_inj_tail in Hsplit as [-> ->]. rewrite E'.
    apply drop_final_empty_id. rewrite last_snoc.
    intros [= H]. by destruct name. }
  split; [exact Hf|].
  assert (¬ header_valid (header_fields content)) as Hmiss;
    [|eexists; split; [by apply process_missing|reflexivity]].
  rewrite Hf.
  assert (name ∉ init ++ [name +:+ String CR EmptyString]) as Hno.
  { rewrite elem_of_app, list_elem_of_singleton. intros [?|H]; [done|].
    apply (f_equal String.length) in H. rewrite string_app_length in H.
    cbn in H. lia. }
  intros (Hp & Ha & Hr). unfold required in Hreq.
  repeat (apply elem_of_cons in Hreq as [->|Hreq]; [done|]).
  by apply elem_of_nil in Hreq.
Qed.

Lemma carriage_return_kept_witness :
  header_line windows_file =
    "package,architecture,release" +:+ String CR EmptyString ∧
  open_ended "," "package,architecture,release" = false ∧
  split_csv_row "package,architecture,release" =
    ["package"; "architecture"] ++ ["release"] ∧
  "release" ∈ required ∧
  ("release" ∉ ["package"; "architecture"]) ∧
  header_fields windows_file =
    ["package"; "architecture"] ++ ["release" +:+ String CR EmptyString] ∧
  ∃ st, process windows_file = Some (1, st) ∧ cerr st = [missing_msg].
Proof.
  assert (header_line windows_file =
          "package,architecture,release" +:+ String CR EmptyString) as Hh
    by (vm_compute; reflexivity).
  assert (split_csv_row "package,architecture,release" =
          ["package"; "architecture"] ++ ["release"]) as Hsplit
    by (vm_compute; reflexivity).
  assert ("release" ∈ required) as Hreq by (repeat constructor).
  assert ("release" ∉ ["package"; "architecture"]) as Hinit.
  { intros H. repeat (apply elem_of_cons in H as [H|H]; [discriminate|]).
    by apply elem_of_nil in H. }
  split; [assumption|]. split; [reflexivity|]. split; [assumption|].
  split; [assumption|]. split; [assumption|].
  apply (carriage_return_kept windows_file "package,architecture,release"
           ["package"; "architecture"] "release");
    [assumption|reflexivity|assumption|assumption|assumption].
Defined.

(** ** The order of the rows, and keys that stay *)

(** X21.  When no two well-formed data rows build the same key, the order
    of the data rows plays no part: two files with the same header line
    whose data lines are the same up to their order give the same index. *)
Theorem row_order_irrelevant content content' :
  header_valid (header_fields content) →
  file_size_ok content →
  file_size_ok content' →
  header_line content' = header_line content →
  data_lines content ≡ₚ data_lines content' →
  NoDup (keys (header_fields content) (data_lines content)) →
  final_index content' = final_index content.
Proof.
  intros Hv Hs Hs' Hh Hp Hnd.
  assert (header_fields content' = header_fields content) as Hf
    by (unfold header_fields; by rewrite Hh).
  rewrite !final_index_valid by (by rewrite ?Hf). rewrite Hf. f_equal.
  symmetry. by apply index_of_permutation.
Qed.

Lemma row_order_irrelevant_witness :
  let content := header_only +:+ more_rows in
  header_valid (header_fields content) ∧
  file_size_ok content ∧
  file_size_ok rows_swapped ∧
  header_line rows_swapped = header_line content ∧
  data_lines content ≡ₚ data_lines rows_swapped ∧
  NoDup (keys (header_fields content) (data_lines content)) ∧
  final_index rows_swapped = final_index content.
Proof.
  intros content.
  assert (header_valid (header_fields content)) as Hv
    by (apply (@bool_decide_unpack _ (header_valid_dec _)); vm_compute;
        exact I).
  assert (file_size_ok content) as Hs by (vm_compute; reflexivity).
  assert (file_size_ok rows_swapped) as Hs' by (vm_compute; reflexivity).
  assert (header_line rows_swapped = header_line content) as Hh
    by (vm_compute; reflexivity).
  assert (data_lines content =
          ["foo,amd64,20.04,1"; "openssl,amd64,22.04,3.0"]) as Ed
    by (vm_compute; reflexivity).
  assert (data_lines rows_swapped =
          ["openssl,amd64,22.04,3.0"; "foo,amd64,20.04,1"]) as Ed'
    by (vm_compute; reflexivity).
  assert (data_lines content ≡ₚ data_lines rows_swapped) as Hp
    by (rewrite Ed, Ed'; apply perm_swap).
  assert (keys (header_fields content) (data_lines content) =
          ["foo|amd64|20.04"; "openssl|amd64|22.04"]) as Ek
    by (vm_compute; reflexivity).
  assert (NoDup (keys (header_fields content) (data_lines content))) as Hnd.
  { rewrite Ek. apply (@bool_decide_unpack _ (NoDup_dec _)). vm_compute.
    exact I. }
  split; [assumption|]. split; [assumption|]. split; [assumption|].
  split; [assumption|]. split; [assumption|]. split; [assumption|].
  apply (row_order_irrelevant content rows_swapped); assumption.
Defined.

(** X22.  The loop never takes a key out of the index: every key of the
    index of a file with a valid header that ends with a line feed is
    still a key of the index when more text follows. *)
Theorem index_keys_kept a b :
  header_valid (header_fields a) →
  open_ended LF a = true →
  file_size_ok (a +:+ b) →
  ∃ m m', final_index a = Some m ∧ final_index (a +:+ b) = Some m' ∧
          dom m ⊆ dom m'.
Proof.
  intros Hv Ha Hs. destruct (final_index_app a b Hv Ha Hs) as [E E'].
  eexists _, _. split; [exact E|]. split; [exact E'|].
  rewrite foldl_index_insert_dom. apply union_subseteq_l.
Qed.

Lemma index_keys_kept_witness :
  header_valid (header_fields two_writes) ∧
  open_ended LF two_writes = true ∧
  file_size_ok (two_writes +:+ more_rows) ∧
  ∃ m m', final_index two_writes = Some m ∧
          final_index (two_writes +:+ more_rows) = Some m' ∧
          dom m ⊆ dom m'.
Proof.
  assert (header_valid (header_fields two_writes)) as Hv
    by (apply (@bool_decide_unpack _ (header_valid_dec _)); vm_compute;
        exact I).
  assert (open_ended LF two_writes = true) as Ha by (vm_compute; reflexivity).
  assert (file_size_ok (two_writes +:+ more_rows)) as Hs
    by (vm_compute; reflexivity).
  split; [assumption|]. split; [assumption|]. split; [assumption|].
  apply (index_keys_kept two_writes more_rows); assumption.
Defined.
